(** * FHEVault: dual-state staking ledger

    A shallow embedding of [contracts/FHEVault.sol]: the vault keeps, for every
    account, a plaintext stake ([uint256]) and an encrypted stake ([euint64]
    handle), together with a plaintext and an encrypted total.  [stake] and
    [withdraw] update the four of them and then ask the confidential token to
    move the asset. *)

From stdpp Require Import gmap list strings.

Open Scope Z_scope.

(** ** Solidity value types *)

(** An [address] is a 160-bit number; an [euint64] is a [bytes32] handle whose
    zero value means "not initialised". *)
Abbreviation address := N (only parsing).
Abbreviation euint64 := N (only parsing).

Definition uint64_max : Z := Eval vm_compute in 2 ^ 64 - 1.
Definition uint256_max : Z := Eval vm_compute in 2 ^ 256 - 1.

Definition is_uint64 (v : Z) : bool := (0 <=? v) && (v <=? uint64_max).

(** ** The encryption engine *)

(** Modelled from the spec: the encryption capability of section 6 (the
    [@fhevm/solidity] library is a dependency, its code is not part of the
    sources).  Every operation produces a fresh handle; the engine remembers the
    clear value behind each handle (the "tracked plaintext shadow" of the design
    notes), the decryption rights granted so far, and the sequence of requests
    it has served.  Values of an [euint64] live in [0, 2^64): addition and
    subtraction are taken modulo [2^64]. *)
Module FHE.

Inductive Op : Type :=
| TrivialEncrypt (value : Z) (result : euint64)
| Add (lhs rhs result : euint64)
| Sub (lhs rhs result : euint64)
| Allow (handle : euint64) (account : address).

Record State : Type := mkState {
  counter : N;
  clear : gmap N Z;
  acl : gset (N * N);
  trace : list Op
}.

Definition init : State := mkState 0 ∅ ∅ [].

Definition fresh (e : State) : euint64 := N.succ (counter e).

Definition decrypt (h : euint64) (e : State) : Z := default 0 (clear e !! h).

Definition isInitialized (h : euint64) : bool := negb (h =? 0)%N.

Definition store (h : euint64) (v : Z) (op : Op) (e : State) : State :=
  mkState h (<[h := v]> (clear e)) (acl e) (trace e ++ [op]).

Definition asEuint64 (v : Z) (e : State) : euint64 * State :=
  let h := fresh e in (h, store h (v mod 2 ^ 64) (TrivialEncrypt v h) e).

Definition add (a b : euint64) (e : State) : euint64 * State :=
  let h := fresh e in
  (h, store h ((decrypt a e + decrypt b e) mod 2 ^ 64) (Add a b h) e).

Definition sub (a b : euint64) (e : State) : euint64 * State :=
  let h := fresh e in
  (h, store h ((decrypt a e - decrypt b e) mod 2 ^ 64) (Sub a b h) e).

Definition allow (h : euint64) (who : address) (e : State) : State :=
  mkState (counter e) (clear e) ({[ (h, who) ]} ∪ acl e) (trace e ++ [Allow h who]).

Definition isAllowed (h : euint64) (who : address) (e : State) : bool :=
  bool_decide ((h, who) ∈ acl e).

Definition is_encrypt (op : Op) : bool :=
  match op with TrivialEncrypt _ _ => true | _ => false end.

(** Number of encryption requests in a trace. *)
Definition encryptions (tr : list Op) : nat := length (List.filter is_encrypt tr).

End FHE.

(** ** The confidential token *)

(** The vault talks to the token through four entry points.  The token
    ([ERC7984USDT], built on a library contract) is an external collaborator:
    its state is abstract and a transfer either is accepted, giving the next
    token state, or is rejected.  The first argument of the two transfers is the
    caller of the token, which is always the vault. *)
Class ERC7984 (Registry : Type) : Type := {
  confidentialTransferFrom :
    address -> address -> address -> euint64 -> Registry -> option Registry;
  confidentialTransfer :
    address -> address -> euint64 -> Registry -> option Registry;
  isOperator : address -> address -> Registry -> bool;
  confidentialBalanceOf : address -> Registry -> euint64
}.

(** ** Contract state, errors and events *)

Inductive Error : Type :=
| InvalidToken
| InvalidAmount
| InsufficientStake
| Panic              (* checked arithmetic: overflow or underflow *)
| AbiDecode          (* the calldata is not a uint64 *)
| TransferReverted.  (* the token rejected the confidential transfer *)

Inductive Event : Type :=
| Staked (user : address) (amount : Z)
| Withdrawn (user : address) (amount : Z).

Record World {Registry : Type} : Type := mkWorld {
  this : address;
  token : address;
  _stakes : gmap N Z;
  _stakesCipher : gmap N N;
  _totalStaked : Z;
  _totalStakedCipher : euint64;
  fhe : FHE.State;
  registry : Registry;
  events : list Event
}.
Arguments World : clear implicits.
Arguments mkWorld {Registry}.

Inductive Outcome (A : Type) : Type :=
| Ok (a : A)
| Revert (e : Error).
Arguments Ok {A}.
Arguments Revert {A}.

Inductive Receipt : Type :=
| Success
| Failure (e : Error).

Section Vault.
Context {Registry : Type} `{!ERC7984 Registry}.

Abbreviation World := (World Registry).

(** *** A state and error monad for contract code

    A computation gets the current storage and returns an outcome and the
    storage as it stands at that point.  A [Revert] stops the computation; the
    writes done before it are still in the returned storage, and it is
    [transact], the boundary of the transaction, that throws them away. *)
Definition M (A : Type) : Type := World -> Outcome A * World.

Definition ret {A} (a : A) : M A := fun w => (Ok a, w).

Definition bind {A B} (m : M A) (k : A -> M B) : M B :=
  fun w => match m w with
           | (Ok a, w') => k a w'
           | (Revert e, w') => (Revert e, w')
           end.

Definition revert {A} (e : Error) : M A := fun w => (Revert e, w).

Definition gets {A} (f : World -> A) : M A := fun w => (Ok (f w), w).

Definition modify (f : World -> World) : M unit := fun w => (Ok tt, f w).

Definition require (b : bool) (e : Error) : M unit :=
  if b then ret tt else revert e.

Definition transact (tx : M unit) (w : World) : Receipt * World :=
  match tx w with
  | (Ok _, w') => (Success, w')
  | (Revert e, _) => (Failure e, w)
  end.

Declare Scope vault_scope.
Delimit Scope vault_scope with vault.
Notation "'let*' x := m 'in' k" := (bind m (fun x => k))
  (at level 10, x name, m at level 100, k at level 200) : vault_scope.
Notation "m ;;; k" := (bind m (fun _ => k))
  (at level 100, k at level 200, right associativity) : vault_scope.
Open Scope vault_scope.

(** *** Storage writes *)

Definition set_stakes (m : gmap N Z) (w : World) : World :=
  mkWorld (this w) (token w) m (_stakesCipher w) (_totalStaked w)
          (_totalStakedCipher w) (fhe w) (registry w) (events w).

Definition set_stakesCipher (m : gmap N N) (w : World) : World :=
  mkWorld (this w) (token w) (_stakes w) m (_totalStaked w)
          (_totalStakedCipher w) (fhe w) (registry w) (events w).

Definition set_totalStaked (v : Z) (w : World) : World :=
  mkWorld (this w) (token w) (_stakes w) (_stakesCipher w) v
          (_totalStakedCipher w) (fhe w) (registry w) (events w).

Definition set_totalStakedCipher (h : euint64) (w : World) : World :=
  mkWorld (this w) (token w) (_stakes w) (_stakesCipher w) (_totalStaked w)
          h (fhe w) (registry w) (events w).

Definition set_fhe (e : FHE.State) (w : World) : World :=
  mkWorld (this w) (token w) (_stakes w) (_stakesCipher w) (_totalStaked w)
          (_totalStakedCipher w) e (registry w) (events w).

Definition set_registry (r : Registry) (w : World) : World :=
  mkWorld (this w) (token w) (_stakes w) (_stakesCipher w) (_totalStaked w)
          (_totalStakedCipher w) (fhe w) r (events w).

Definition emit (ev : Event) : M unit :=
  modify (fun w =>
    mkWorld (this w) (token w) (_stakes w) (_stakesCipher w) (_totalStaked w)
            (_totalStakedCipher w) (fhe w) (registry w) (events w ++ [ev])).

(** *** Views *)

Definition getStake (user : address) (w : World) : Z :=
  default 0 (_stakes w !! user).

Definition getStakeCipher (user : address) (w : World) : euint64 :=
  default 0%N (_stakesCipher w !! user).

Definition getTotalStaked (w : World) : Z := _totalStaked w.

Definition getTotalStakedCipher (w : World) : euint64 := _totalStakedCipher w.

Definition isVaultOperator (holder : address) (w : World) : bool :=
  isOperator holder (this w) (registry w).

Definition tokenAddress (w : World) : address := token w.

Definition getVaultBalanceCipher (w : World) : euint64 :=
  confidentialBalanceOf (this w) (registry w).

(** *** Checked [uint256] arithmetic (Solidity 0.8) *)

Definition checked_add (a b : Z) : M Z :=
  if a + b <=? uint256_max then ret (a + b) else revert Panic.

Definition checked_sub (a b : Z) : M Z :=
  if b <=? a then ret (a - b) else revert Panic.

(** *** Calls into the engine and into the token *)

Definition FHE_asEuint64 (v : Z) : M euint64 :=
  fun w => let '(h, e) := FHE.asEuint64 v (fhe w) in (Ok h, set_fhe e w).

Definition FHE_add (a b : euint64) : M euint64 :=
  fun w => let '(h, e) := FHE.add a b (fhe w) in (Ok h, set_fhe e w).

Definition FHE_sub (a b : euint64) : M euint64 :=
  fun w => let '(h, e) := FHE.sub a b (fhe w) in (Ok h, set_fhe e w).

Definition FHE_allow (h : euint64) (who : address) : M unit :=
  modify (fun w => set_fhe (FHE.allow h who (fhe w)) w).

Definition FHE_allowThis (h : euint64) : M unit :=
  let* self := gets this in FHE_allow h self.

Definition token_confidentialTransferFrom (from to : address) (h : euint64) : M unit :=
  fun w => match confidentialTransferFrom (this w) from to h (registry w) with
           | Some r => (Ok tt, set_registry r w)
           | None => (Revert TransferReverted, w)
           end.

Definition token_confidentialTransfer (to : address) (h : euint64) : M unit :=
  fun w => match confidentialTransfer (this w) to h (registry w) with
           | Some r => (Ok tt, set_registry r w)
           | None => (Revert TransferReverted, w)
           end.

(** *** The contract *)

Definition constructor (self tokenAddress_ : address) (r : Registry) : Outcome World :=
  if (tokenAddress_ =? 0)%N then Revert InvalidToken
  else Ok (mkWorld self tokenAddress_ ∅ ∅ 0 0%N FHE.init r []).

Definition _updateEncryptedStake (user : address) (amount : euint64) (isAddition : bool)
  : M unit :=
  let* currentCipher := gets (getStakeCipher user) in
  let* updatedCipher :=
    (if negb (FHE.isInitialized currentCipher) then ret amount
     else if isAddition then FHE_add currentCipher amount
          else FHE_sub currentCipher amount) in
  FHE_allowThis updatedCipher;;;
  FHE_allow updatedCipher user;;;
  modify (fun w => set_stakesCipher (<[user := updatedCipher]> (_stakesCipher w)) w).

Definition _updateTotalEncryptedStake (amount : euint64) (isAddition : bool) : M unit :=
  let* current := gets _totalStakedCipher in
  (if negb (FHE.isInitialized current) then modify (set_totalStakedCipher amount)
   else
     let* updated := (if isAddition then FHE_add current amount
                      else FHE_sub current amount) in
     modify (set_totalStakedCipher updated));;;
  let* updated := gets _totalStakedCipher in
  FHE_allowThis updated.

(** [function stake(uint64 amount) external], called by [sender].  The first
    line stands for the decoding of the [uint64] argument. *)
Definition stake (sender : address) (amount : Z) : M unit :=
  require (is_uint64 amount) AbiDecode;;;
  require (negb (amount =? 0)) InvalidAmount;;;
  let* currentStake := gets (getStake sender) in
  let* newStake := checked_add currentStake amount in
  modify (fun w => set_stakes (<[sender := newStake]> (_stakes w)) w);;;
  let* total := gets _totalStaked in
  let* total' := checked_add total amount in
  modify (set_totalStaked total');;;
  let* encryptedAmount := FHE_asEuint64 amount in
  _updateEncryptedStake sender encryptedAmount true;;;
  _updateTotalEncryptedStake encryptedAmount true;;;
  (let* self := gets this in FHE_allow encryptedAmount self);;;
  (let* tok := gets token in FHE_allow encryptedAmount tok);;;
  (let* self := gets this in
   token_confidentialTransferFrom sender self encryptedAmount);;;
  emit (Staked sender amount).

(** [function withdraw(uint64 amount) external], called by [sender]. *)
Definition withdraw (sender : address) (amount : Z) : M unit :=
  require (is_uint64 amount) AbiDecode;;;
  require (negb (amount =? 0)) InvalidAmount;;;
  let* currentStake := gets (getStake sender) in
  require (negb (currentStake <? amount)) InsufficientStake;;;
  let* newStake := checked_sub currentStake amount in
  modify (fun w => set_stakes (<[sender := newStake]> (_stakes w)) w);;;
  let* total := gets _totalStaked in
  let* total' := checked_sub total amount in
  modify (set_totalStaked total');;;
  let* encryptedAmount := FHE_asEuint64 amount in
  _updateEncryptedStake sender encryptedAmount false;;;
  _updateTotalEncryptedStake encryptedAmount false;;;
  (let* self := gets this in FHE_allow encryptedAmount self);;;
  (let* tok := gets token in FHE_allow encryptedAmount tok);;;
  token_confidentialTransfer sender encryptedAmount;;;
  emit (Withdrawn sender amount).

(** *** Calls and histories *)

Inductive Call : Type :=
| CallStake (sender : address) (amount : Z)
| CallWithdraw (sender : address) (amount : Z).

Definition caller (c : Call) : address :=
  match c with CallStake s _ | CallWithdraw s _ => s end.

Definition amount_of (c : Call) : Z :=
  match c with CallStake _ a | CallWithdraw _ a => a end.

Definition is_deposit (c : Call) : bool :=
  match c with CallStake _ _ => true | CallWithdraw _ _ => false end.

Definition perform (c : Call) : M unit :=
  match c with
  | CallStake s a => stake s a
  | CallWithdraw s a => withdraw s a
  end.

(** The token's answer to the transfer that call [c] would request in [w]:
    the ciphertext passed is the one the engine hands out next. *)
Definition transfer_step (c : Call) (w : World) : option Registry :=
  match c with
  | CallStake s _ =>
      confidentialTransferFrom (this w) s (this w) (FHE.fresh (fhe w)) (registry w)
  | CallWithdraw s _ =>
      confidentialTransfer (this w) s (FHE.fresh (fhe w)) (registry w)
  end.

(** Between two calls of the vault the token may change under other
    transactions (mint, setOperator, transfers between third parties). *)
Inductive Step : Type :=
| Invoke (c : Call)
| TokenMoves (r : Registry).

Definition step (w : World) (s : Step) : World :=
  match s with
  | Invoke c => snd (transact (perform c) w)
  | TokenMoves r => set_registry r w
  end.

Definition replay (steps : list Step) (w : World) : World := foldl step w steps.

Definition reachable (w : World) : Prop :=
  exists self tokenAddress_ r w_init steps,
    constructor self tokenAddress_ r = Ok w_init /\ replay steps w_init = w.

(** *** Quantities the properties speak about *)

Definition sum_stakes (m : gmap N Z) : Z := map_fold (fun _ v acc => v + acc) 0 m.

Definition conserved (w : World) : Prop := _totalStaked w = sum_stakes (_stakes w).

(** *** The accumulator update, in the words of the specification *)

Definition grant_decrypt (new_handle : euint64) (principals : list address)
    (e : FHE.State) : FHE.State :=
  foldl (fun e p => FHE.allow new_handle p e) e principals.

Definition update_with (principals : list address)
    (current_handle delta_ciphertext : euint64) (is_addition : bool)
    (e : FHE.State) : euint64 * FHE.State :=
  let '(new_handle, e1) :=
    if negb (FHE.isInitialized current_handle) then (delta_ciphertext, e)
    else if is_addition then FHE.add current_handle delta_ciphertext e
         else FHE.sub current_handle delta_ciphertext e in
  (new_handle, grant_decrypt new_handle principals e1).


(** Steps 2 to 4 of a deposit or withdrawal: one encryption, the two
    accumulator updates, and the rights on the encrypted amount. *)
Definition encrypted_bookkeeping (is_addition : bool) (sender : address) (amount : Z)
    (w : World) : euint64 * euint64 * FHE.State :=
  let '(h, e1) := FHE.asEuint64 amount (fhe w) in
  let '(hs, e2) :=
    update_with [this w; sender] (getStakeCipher sender w) h is_addition e1 in
  let '(ht, e3) := update_with [this w] (_totalStakedCipher w) h is_addition e2 in
  (hs, ht, FHE.allow h (token w) (FHE.allow h (this w) e3)).

(** *** Invariants

    [solvent]: the plaintext books balance.  [mirrored]: every handle the
    ledger stores is known to the engine, an account without a handle has no
    stake, and an initialised handle decrypts to the plaintext figure modulo
    [2^64]. *)

Record solvent (w : World) : Prop := {
  solvent_total : conserved w;
  solvent_nonneg : forall a v, _stakes w !! a = Some v -> 0 <= v;
  solvent_bound : _totalStaked w <= uint256_max
}.

Record mirrored (w : World) : Prop := {
  mirrored_known : forall a, (getStakeCipher a w <= FHE.counter (fhe w))%N;
  mirrored_known_total : (_totalStakedCipher w <= FHE.counter (fhe w))%N;
  mirrored_blank : forall a, getStakeCipher a w = 0%N -> getStake a w = 0;
  mirrored_stake : forall a,
    getStakeCipher a w <> 0%N ->
    FHE.decrypt (getStakeCipher a w) (fhe w) = getStake a w mod 2 ^ 64;
  mirrored_blank_total : _totalStakedCipher w = 0%N -> _totalStaked w = 0;
  mirrored_total :
    _totalStakedCipher w <> 0%N ->
    FHE.decrypt (_totalStakedCipher w) (fhe w) = _totalStaked w mod 2 ^ 64
}.

(** The value an accumulator holds after an update by [amount]. *)
Definition folded (is_addition : bool) (current : euint64) (old amount : Z) : Z :=
  if FHE.isInitialized current
  then (if is_addition then old + amount mod 2 ^ 64 else old - amount mod 2 ^ 64)
         mod 2 ^ 64
  else amount mod 2 ^ 64.

End Vault.

(** ** A stand-in for the token *)

(** A token with one bit of state: it accepts every transfer while [Open] and
    rejects every transfer while [Shut]. *)
Inductive Gate : Type := Open | Shut.

#[export] Instance Gate_token : ERC7984 Gate := {|
  confidentialTransferFrom _ _ _ _ g := match g with Open => Some g | Shut => None end;
  confidentialTransfer _ _ _ g := match g with Open => Some g | Shut => None end;
  isOperator _ _ g := match g with Open => true | Shut => false end;
  confidentialBalanceOf _ _ := 0%N
|}.


(** ** Concrete ledgers *)

Definition vault_address : address := 500%N.
Definition token_address : address := 600%N.
Definition alice : address := 1001%N.
Definition bob : address := 1002%N.

(** The ledger just after deployment, next to a token in state [g]. *)
Definition genesis (g : Gate) : World Gate :=
  mkWorld vault_address token_address ∅ ∅ 0 0%N FHE.init g [].

Definition after_deposit : World Gate :=
  replay [Invoke (CallStake alice 5000000)] (genesis Open).

Definition after_withdraw : World Gate :=
  replay [Invoke (CallStake alice 5000000); Invoke (CallWithdraw alice 2000000)]
    (genesis Open).

Definition two_stakers : World Gate :=
  replay [Invoke (CallStake alice 5000000); Invoke (CallStake bob 7)] (genesis Open).

Definition once_max : World Gate :=
  replay [Invoke (CallStake alice uint64_max)] (genesis Open).

(** A ledger on which [alice] has deposited [2^64 - 1] twice. *)
Definition twice_max : World Gate :=
  replay [Invoke (CallStake alice uint64_max); Invoke (CallStake alice uint64_max)]
    (genesis Open).

(** ** The event log as a journal *)

(** What event [ev] adds to the stake of account [a], and to the total. *)
Definition signed_amount (a : address) (ev : Event) : Z :=
  match ev with
  | Staked user amount => if decide (user = a) then amount else 0
  | Withdrawn user amount => if decide (user = a) then - amount else 0
  end.

Definition flow (ev : Event) : Z :=
  match ev with
  | Staked _ amount => amount
  | Withdrawn _ amount => - amount
  end.

Definition net_staked (a : address) (evs : list Event) : Z :=
  foldr (fun ev acc => signed_amount a ev + acc) 0 evs.

Definition net_flow (evs : list Event) : Z :=
  foldr (fun ev acc => flow ev + acc) 0 evs.

(** The event a call emits when it completes. *)
Definition event_of (c : Call) : Event :=
  match c with
  | CallStake s a => Staked s a
  | CallWithdraw s a => Withdrawn s a
  end.

(** The ledger agrees with its event log. *)
Definition journalled {Registry : Type} (w : World Registry) : Prop :=
  (forall a, getStake a w = net_staked a (events w)) /\
  getTotalStaked w = net_flow (events w).

(** ** Rights on the stored handles *)

(** The ledger and the account hold rights on the account's handle, and the
    ledger holds rights on the total handle. *)
Record entitled {Registry : Type} (w : World Registry) : Prop := {
  entitled_ledger : forall a,
    getStakeCipher a w <> 0%N ->
    FHE.isAllowed (getStakeCipher a w) (this w) (fhe w) = true;
  entitled_account : forall a,
    getStakeCipher a w <> 0%N ->
    FHE.isAllowed (getStakeCipher a w) a (fhe w) = true;
  entitled_total :
    _totalStakedCipher w <> 0%N ->
    FHE.isAllowed (_totalStakedCipher w) (this w) (fhe w) = true
}.

(** ** The front end ([VaultApp.tsx]) *)

(** The amount validation and the decryption request of the front end.  The
    constants come from [config/contracts] and [parseUnits] from the [viem]
    library; a thrown [Error] is its message. *)
Section FrontEnd.
Variables (MAX_UINT64 : Z) (TOKEN_DECIMALS : nat).
Variables (FHE_VAULT_ADDRESS FUSDT_ADDRESS : address).
Variable parseUnits : string -> nat -> string + Z.
Variable trim : string -> string.

Definition ensurePositiveAmount (value action : string) : string + Z :=
  if bool_decide (value = "") || bool_decide (trim value = "") then
    inl ("Enter an amount to " +:+ action +:+ ".")
  else
    match parseUnits value TOKEN_DECIMALS with
    | inl message => inl message
    | inr parsed =>
        if parsed <=? 0 then inl "Amount must be greater than zero."
        else if MAX_UINT64 <? parsed then
          inl "Amount exceeds the uint64 maximum supported by the vault."
        else inr parsed
    end.

(** The checks of [handleWithdraw] on its input, up to the point where it
    sends [vault.withdraw(amount)]; [plainStake] is the stake it last read. *)
Definition withdraw_amount (withdrawInput : string) (plainStake : Z) : string + Z :=
  match ensurePositiveAmount withdrawInput "withdraw" with
  | inl message => inl message
  | inr amount =>
      if plainStake <? amount then inl "Withdraw amount exceeds your staked balance."
      else inr amount
  end.

Record HandlePair : Type := mkHandlePair {
  handle : euint64;
  contractAddress : address
}.

(** The handles [decryptQuery] asks to decrypt; [ZERO_BYTES32] is the handle
    [0]. *)
Definition handlePairs (stakeCipher tokenBalanceCipher vaultBalanceCipher : euint64)
  : list HandlePair :=
  let pairs := [] in
  let pairs :=
    if negb (stakeCipher =? 0)%N
    then pairs ++ [mkHandlePair stakeCipher FHE_VAULT_ADDRESS] else pairs in
  let pairs :=
    if negb (tokenBalanceCipher =? 0)%N
    then pairs ++ [mkHandlePair tokenBalanceCipher FUSDT_ADDRESS] else pairs in
  let pairs :=
    if negb (vaultBalanceCipher =? 0)%N
    then pairs ++ [mkHandlePair vaultBalanceCipher FUSDT_ADDRESS] else pairs in
  pairs.

(** [Array.from(new Set(xs))]: the elements of [xs] in the order of their
    first occurrence. *)
Definition array_from_set (xs : list address) : list address :=
  foldl (fun seen x => if bool_decide (x ∈ seen) then seen else seen ++ [x]) [] xs.

Definition uniqueContracts (pairs : list HandlePair) : list address :=
  array_from_set (map contractAddress pairs).

(** The condition under which [decryptQuery] is enabled, as far as the three
    handles go. *)
Definition some_handle (stakeCipher tokenBalanceCipher vaultBalanceCipher : euint64)
  : bool :=
  negb (stakeCipher =? 0)%N || negb (tokenBalanceCipher =? 0)%N
  || negb (vaultBalanceCipher =? 0)%N.

End FrontEnd.

(** Stand-ins for the instances: a [parseUnits] that reads whole numbers of
    tokens, and a [trim] for inputs typed without surrounding blanks. *)
Fixpoint digits_value (acc : Z) (s : string) : option Z :=
  match s with
  | EmptyString => Some acc
  | String ch rest =>
      let n := Z.of_nat (Ascii.nat_of_ascii ch) in
      if (48 <=? n) && (n <=? 57) then digits_value (10 * acc + (n - 48)) rest
      else None
  end.

Definition whole_units (value : string) (decimals : nat) : string + Z :=
  match digits_value 0 value with
  | Some n => inr (n * 10 ^ Z.of_nat decimals)
  | None => inl "not a whole number"
  end.

Definition as_typed (value : string) : string := value.

(** ** What a call does *)

Section Calls.
Context {Registry : Type} `{!ERC7984 Registry}.
Implicit Types (w : World Registry) (sender user : address) (amount : Z).

Ltac vault_unfold :=
  unfold stake, withdraw, _updateEncryptedStake, _updateTotalEncryptedStake,
    FHE_asEuint64, FHE_add, FHE_sub, FHE_allowThis, FHE_allow,
    token_confidentialTransferFrom, token_confidentialTransfer,
    emit, modify, gets, require, checked_add, checked_sub, bind, ret, revert,
    encrypted_bookkeeping, update_with, grant_decrypt, getStakeCipher,
    FHE.asEuint64, FHE.add, FHE.sub in *.

Ltac vault_cases := repeat (case_match; simplify_eq/=).

(** A successful [stake]: the checks it passed and the storage it leaves. *)
Lemma stake_inv w sender amount w' :
  stake sender amount w = (Ok tt, w') ->
  is_uint64 amount = true /\ amount <> 0 /\
  getStake sender w + amount <= uint256_max /\
  _totalStaked w + amount <= uint256_max /\
  exists r hs ht e,
    confidentialTransferFrom (this w) sender (this w) (FHE.fresh (fhe w)) (registry w)
      = Some r /\
    encrypted_bookkeeping true sender amount w = (hs, ht, e) /\
    w' = mkWorld (this w) (token w)
           (<[sender := getStake sender w + amount]> (_stakes w))
           (<[sender := hs]> (_stakesCipher w))
           (_totalStaked w + amount) ht e r
           (events w ++ [Staked sender amount]).
Proof.
  intros H. vault_unfold. cbn in H. vault_cases.
  all: repeat split; try done; try lia.
  all: do 4 eexists; split; [eassumption|]; split; reflexivity.
Qed.

Lemma withdraw_inv w sender amount w' :
  withdraw sender amount w = (Ok tt, w') ->
  is_uint64 amount = true /\ amount <> 0 /\
  amount <= getStake sender w /\
  amount <= _totalStaked w /\
  exists r hs ht e,
    confidentialTransfer (this w) sender (FHE.fresh (fhe w)) (registry w) = Some r /\
    encrypted_bookkeeping false sender amount w = (hs, ht, e) /\
    w' = mkWorld (this w) (token w)
           (<[sender := getStake sender w - amount]> (_stakes w))
           (<[sender := hs]> (_stakesCipher w))
           (_totalStaked w - amount) ht e r
           (events w ++ [Withdrawn sender amount]).
Proof.
  intros H. vault_unfold. cbn in H. vault_cases.
  all: repeat split; try done; try lia.
  all: do 4 eexists; split; [eassumption|]; split; reflexivity.
Qed.

Lemma stake_zero w sender : stake sender 0 w = (Revert InvalidAmount, w).
Proof. reflexivity. Qed.

Lemma withdraw_zero w sender : withdraw sender 0 w = (Revert InvalidAmount, w).
Proof. reflexivity. Qed.

Lemma is_uint64_spec amount : is_uint64 amount = true <-> 0 <= amount <= uint64_max.
Proof. unfold is_uint64. rewrite andb_true_iff, !Z.leb_le. done. Qed.

Lemma withdraw_insufficient w sender amount :
  0 < amount <= uint64_max ->
  fst (withdraw sender amount w) = Revert InsufficientStake <->
  getStake sender w < amount.
Proof.
  intros Hamount.
  assert (is_uint64 amount = true) as Hu by (apply is_uint64_spec; lia).
  assert ((amount =? 0) = false) as Hz by lia.
  unfold withdraw, require, bind, ret, revert, gets. rewrite Hu, Hz. cbn.
  destruct (getStake sender w <? amount) eqn:Hlt; cbn.
  - split; [lia | done].
  - vault_unfold. cbn. vault_cases; split; (done || lia).
Qed.

Lemma withdraw_never_panics w sender amount :
  (amount <= getStake sender w -> amount <= _totalStaked w) ->
  fst (withdraw sender amount w) <> Revert Panic.
Proof.
  intros Htotal. vault_unfold. cbn. vault_cases; try done; lia.
Qed.

Lemma withdraw_succeeds w sender amount r :
  0 < amount <= uint64_max ->
  amount <= getStake sender w ->
  amount <= _totalStaked w ->
  confidentialTransfer (this w) sender (FHE.fresh (fhe w)) (registry w) = Some r ->
  exists w', withdraw sender amount w = (Ok tt, w').
Proof.
  intros Hamount Hstake Htotal Hr.
  assert (is_uint64 amount = true) as Hu by (apply is_uint64_spec; lia).
  vault_unfold. cbn. rewrite Hu. cbn. vault_cases; try lia; eauto.
Qed.

Lemma stake_succeeds w sender amount r :
  0 < amount <= uint64_max ->
  getStake sender w + amount <= uint256_max ->
  _totalStaked w + amount <= uint256_max ->
  confidentialTransferFrom (this w) sender (this w) (FHE.fresh (fhe w)) (registry w)
    = Some r ->
  exists w', stake sender amount w = (Ok tt, w').
Proof.
  intros Hamount Hstake Htotal Hr.
  assert (is_uint64 amount = true) as Hu by (apply is_uint64_spec; lia).
  vault_unfold. cbn. rewrite Hu. cbn. vault_cases; try lia; eauto.
Qed.

(** When the token rejects the transfer the call reverts, whatever it had
    written before. *)
Lemma rejected_reverts c w :
  transfer_step c w = None -> exists e w', perform c w = (Revert e, w').
Proof.
  destruct c as [s a|s a]; cbn; intros Hr.
  all: vault_unfold; cbn; vault_cases; eauto.
Qed.

Lemma transact_success tx w w' :
  transact tx w = (Success, w') <-> tx w = (Ok tt, w').
Proof.
  unfold transact. destruct (tx w) as [[[]|e] w'']; split; intros; by simplify_eq.
Qed.

Lemma transact_failure tx w e w' :
  transact tx w = (Failure e, w') -> w' = w.
Proof. unfold transact. destruct (tx w) as [[[]|e'] w'']; intros; by simplify_eq. Qed.

Lemma transact_cases tx w :
  (exists w', tx w = (Ok tt, w') /\ transact tx w = (Success, w')) \/
  (exists e, transact tx w = (Failure e, w)).
Proof. unfold transact. destruct (tx w) as [[[]|e] w'']; eauto. Qed.

End Calls.

(** ** Sums over the stake table *)

Section Sums.
Implicit Types (m : gmap N Z).

Lemma sum_stakes_empty : sum_stakes ∅ = 0.
Proof. apply map_fold_empty. Qed.

Lemma sum_stakes_fresh m k v :
  m !! k = None -> sum_stakes (<[k := v]> m) = v + sum_stakes m.
Proof.
  intros Hk. unfold sum_stakes.
  rewrite map_fold_insert_L; [done | intros; lia | done].
Qed.

Lemma sum_stakes_delete m k v :
  m !! k = Some v -> sum_stakes m = v + sum_stakes (delete k m).
Proof.
  intros Hk. unfold sum_stakes.
  rewrite (map_fold_delete_L _ _ k v m); [done | intros; lia | done].
Qed.

(** Overwriting one entry moves the sum by the difference. *)
Lemma sum_stakes_insert m k v :
  sum_stakes (<[k := v]> m) = sum_stakes m - default 0 (m !! k) + v.
Proof.
  destruct (m !! k) as [old|] eqn:Hk; cbn.
  - rewrite (sum_stakes_delete m k old Hk), <- insert_delete_eq.
    rewrite sum_stakes_fresh by apply lookup_delete_eq. lia.
  - rewrite sum_stakes_fresh by done. lia.
Qed.

Lemma sum_stakes_nonneg m :
  (forall k v, m !! k = Some v -> 0 <= v) -> 0 <= sum_stakes m.
Proof.
  induction m as [|k v m Hk IH] using map_ind; intros Hpos.
  - by rewrite sum_stakes_empty.
  - rewrite sum_stakes_fresh by done.
    assert (0 <= v) by (apply (Hpos k); by rewrite lookup_insert_eq).
    assert (0 <= sum_stakes m); [|lia].
    apply IH. intros j x Hj. apply (Hpos j).
    rewrite lookup_insert_ne; [done | congruence].
Qed.

(** No single stake exceeds the sum of all of them. *)
Lemma stake_le_sum m k :
  (forall j v, m !! j = Some v -> 0 <= v) -> default 0 (m !! k) <= sum_stakes m.
Proof.
  intros Hpos. destruct (m !! k) as [v|] eqn:Hk; cbn.
  - rewrite (sum_stakes_delete m k v Hk).
    assert (0 <= sum_stakes (delete k m)); [|lia].
    apply sum_stakes_nonneg. intros j x [_ Hj]%lookup_delete_Some. eauto.
  - by apply sum_stakes_nonneg.
Qed.

End Sums.

(** ** Invariants of the reachable states *)

Section Invariants.
Context {Registry : Type} `{!ERC7984 Registry}.
Implicit Types (w : World Registry) (sender user : address) (amount : Z).

(** An induction principle for histories. *)
Lemma replay_invariant (P : World Registry -> Prop) :
  (forall w s, P w -> P (step w s)) ->
  forall steps w, P w -> P (replay steps w).
Proof.
  intros Hstep steps. unfold replay.
  induction steps as [|s steps IH]; intros w Hw; cbn; [done|].
  apply IH, Hstep, Hw.
Qed.

Lemma reachable_invariant (P : World Registry -> Prop) :
  (forall self tokenAddress_ r w, constructor self tokenAddress_ r = Ok w -> P w) ->
  (forall w s, P w -> P (step w s)) ->
  forall w, reachable w -> P w.
Proof.
  intros Hinit Hstep w (self & tok & r & w_init & steps & Hc & <-).
  apply replay_invariant; eauto.
Qed.

Lemma constructor_inv self tokenAddress_ r w :
  constructor self tokenAddress_ r = Ok w ->
  tokenAddress_ <> 0%N /\
  w = mkWorld self tokenAddress_ ∅ ∅ 0 0%N FHE.init r [].
Proof.
  unfold constructor. destruct (tokenAddress_ =? 0)%N eqn:Hz; [done|].
  intros [= <-]. split; [by apply N.eqb_neq | done].
Qed.

(** A step is a successful call, a failed call or a move of the token. *)
Lemma step_cases w s :
  (exists c w', s = Invoke c /\ perform c w = (Ok tt, w') /\ step w s = w') \/
  step w s = w \/
  (exists r, step w s = set_registry r w).
Proof.
  destruct s as [c|r]; cbn; [|eauto].
  destruct (transact_cases (perform c) w) as [(w' & Hrun & ->)|[e ->]]; cbn; eauto 6.
Qed.

Lemma getStake_nonneg w a : solvent w -> 0 <= getStake a w.
Proof.
  intros [_ Hpos _]. unfold getStake.
  destruct (_stakes w !! a) as [v|] eqn:Ha; cbn; [eauto | done].
Qed.

Lemma solvent_stake_le_total w a : solvent w -> getStake a w <= _totalStaked w.
Proof. intros [-> Hpos _]. by apply stake_le_sum. Qed.

Lemma solvent_write w w' a v :
  solvent w -> 0 <= v ->
  _stakes w' = <[a := v]> (_stakes w) ->
  _totalStaked w' = _totalStaked w - getStake a w + v ->
  _totalStaked w' <= uint256_max ->
  solvent w'.
Proof.
  intros [Htot Hpos _] Hv Hs Ht Hmax. split; [| |done].
  - unfold conserved. rewrite Ht, Hs, sum_stakes_insert, Htot. done.
  - intros b x. rewrite Hs, lookup_insert. case_decide; [by intros [= <-] | eauto].
Qed.

Lemma solvent_perform c w w' :
  solvent w -> perform c w = (Ok tt, w') -> solvent w'.
Proof.
  intros Hw Hrun. pose proof (getStake_nonneg w (caller c) Hw) as Hge.
  pose proof (solvent_bound w Hw) as Hmax.
  destruct c as [s a|s a]; cbn in *.
  - apply stake_inv in Hrun
      as (Hu%is_uint64_spec & _ & _ & Hfit & r & hs & ht & e & _ & _ & ->).
    apply (solvent_write w _ s (getStake s w + a)); cbn; [done | lia | done | lia | lia].
  - apply withdraw_inv in Hrun
      as (Hu%is_uint64_spec & _ & Hle & _ & r & hs & ht & e & _ & _ & ->).
    apply (solvent_write w _ s (getStake s w - a)); cbn; [done | lia | done | lia | lia].
Qed.

Lemma solvent_step w s : solvent w -> solvent (step w s).
Proof.
  intros Hw.
  destruct (step_cases w s) as [(c & w' & _ & Hrun & ->)|[->|[r ->]]];
    [by eapply solvent_perform | done | by destruct Hw].
Qed.

Lemma solvent_constructor self tokenAddress_ r w :
  constructor self tokenAddress_ r = Ok w -> solvent w.
Proof.
  intros [_ ->]%constructor_inv. split; [reflexivity| |done].
  intros a v. cbn. by rewrite lookup_empty.
Qed.

Lemma reachable_solvent w : reachable w -> solvent w.
Proof.
  apply reachable_invariant; eauto using solvent_constructor, solvent_step.
Qed.

End Invariants.

(** ** The encrypted mirror *)

Section Engine.
Implicit Types (e : FHE.State) (h : euint64).

Lemma grant_decrypt_cons h p ps e :
  grant_decrypt h (p :: ps) e = grant_decrypt h ps (FHE.allow h p e).
Proof. reflexivity. Qed.

Lemma grant_decrypt_clear h ps e : FHE.clear (grant_decrypt h ps e) = FHE.clear e.
Proof.
  revert e. induction ps as [|p ps IH]; intros e; [done|].
  by rewrite grant_decrypt_cons, IH.
Qed.

Lemma grant_decrypt_counter h ps e : FHE.counter (grant_decrypt h ps e) = FHE.counter e.
Proof.
  revert e. induction ps as [|p ps IH]; intros e; [done|].
  by rewrite grant_decrypt_cons, IH.
Qed.

Lemma grant_decrypt_trace h ps e :
  FHE.trace (grant_decrypt h ps e) = FHE.trace e ++ map (FHE.Allow h) ps.
Proof.
  revert e. induction ps as [|p ps IH]; intros e.
  - cbn. by rewrite app_nil_r.
  - rewrite grant_decrypt_cons, IH. cbn. by rewrite <- app_assoc.
Qed.

Lemma grant_decrypt_acl h ps e x :
  x ∈ FHE.acl (grant_decrypt h ps e) <-> x ∈ FHE.acl e \/ exists p, p ∈ ps /\ x = (h, p).
Proof.
  revert e. induction ps as [|p ps IH]; intros e.
  - cbn. split; [auto | intros [?|(p & Hp & _)]; [done | by apply elem_of_nil in Hp]].
  - rewrite grant_decrypt_cons, IH. cbn. rewrite elem_of_union, elem_of_singleton.
    setoid_rewrite elem_of_cons. split.
    + intros [[Hx|Hx]|(q & Hq & Hx)];
        [right; exists p; auto | by left | right; exists q; auto].
    + intros [Hx|(q & [->|Hq] & Hx)]; [left; by right | left; by left | right; eauto].
Qed.

Lemma decrypt_grant h h' ps e : FHE.decrypt h (grant_decrypt h' ps e) = FHE.decrypt h e.
Proof. unfold FHE.decrypt. by rewrite grant_decrypt_clear. Qed.

Lemma decrypt_store_eq h v op e : FHE.decrypt h (FHE.store h v op e) = v.
Proof. unfold FHE.decrypt. cbn. by rewrite lookup_insert_eq. Qed.

Lemma decrypt_store_ne h h' v op e :
  h <> h' -> FHE.decrypt h (FHE.store h' v op e) = FHE.decrypt h e.
Proof. intros Hne. unfold FHE.decrypt. cbn. by rewrite lookup_insert_ne. Qed.

(** The homomorphic operations compute modulo [2^64]. *)
Lemma decrypt_add a b e :
  FHE.decrypt (FHE.add a b e).1 (FHE.add a b e).2 =
  (FHE.decrypt a e + FHE.decrypt b e) mod 2 ^ 64.
Proof. apply decrypt_store_eq. Qed.

Lemma decrypt_sub a b e :
  FHE.decrypt (FHE.sub a b e).1 (FHE.sub a b e).2 =
  (FHE.decrypt a e - FHE.decrypt b e) mod 2 ^ 64.
Proof. apply decrypt_store_eq. Qed.

Lemma decrypt_asEuint64 v e :
  FHE.decrypt (FHE.asEuint64 v e).1 (FHE.asEuint64 v e).2 = v mod 2 ^ 64.
Proof. apply decrypt_store_eq. Qed.

(** What one accumulator update does to the engine. *)
Lemma update_with_spec ps cur delta (b : bool) e h' e' :
  update_with ps cur delta b e = (h', e') ->
  (cur <= FHE.counter e)%N -> (delta <= FHE.counter e)%N -> delta <> 0%N ->
  h' <> 0%N /\ (h' <= FHE.counter e')%N /\ (FHE.counter e <= FHE.counter e')%N /\
  (forall h, (h <= FHE.counter e)%N -> FHE.decrypt h e' = FHE.decrypt h e) /\
  FHE.decrypt h' e' =
    (if FHE.isInitialized cur
     then (if b then FHE.decrypt cur e + FHE.decrypt delta e
           else FHE.decrypt cur e - FHE.decrypt delta e) mod 2 ^ 64
     else FHE.decrypt delta e).
Proof.
  unfold update_with. intros Hrun Hcur Hdelta Hnz.
  destruct (FHE.isInitialized cur) eqn:Hinit; cbn in Hrun.
  - assert (h' = FHE.fresh e /\ exists v op,
              e' = grant_decrypt h' ps (FHE.store h' v op e) /\
              v = (if b then FHE.decrypt cur e + FHE.decrypt delta e
                   else FHE.decrypt cur e - FHE.decrypt delta e) mod 2 ^ 64)
      as (-> & v & op & -> & Hv).
    { destruct b; cbn in Hrun; simplify_eq; eauto. }
    rewrite grant_decrypt_counter. cbn. unfold FHE.fresh.
    repeat split; try lia.
    + intros h Hh. rewrite decrypt_grant, decrypt_store_ne; [done | lia].
    + by rewrite decrypt_grant, decrypt_store_eq.
  - simplify_eq. rewrite grant_decrypt_counter.
    repeat split; try done.
    + intros h _. apply decrypt_grant.
    + apply decrypt_grant.
Qed.

End Engine.

Section Mirror.
Context {Registry : Type} `{!ERC7984 Registry}.
Implicit Types (w : World Registry) (sender user : address) (amount : Z).

Lemma bookkeeping_spec (b : bool) sender amount w hs ht e :
  encrypted_bookkeeping b sender amount w = (hs, ht, e) ->
  (getStakeCipher sender w <= FHE.counter (fhe w))%N ->
  (_totalStakedCipher w <= FHE.counter (fhe w))%N ->
  hs <> 0%N /\ ht <> 0%N /\
  (hs <= FHE.counter e)%N /\ (ht <= FHE.counter e)%N /\
  (FHE.counter (fhe w) <= FHE.counter e)%N /\
  (forall h, (h <= FHE.counter (fhe w))%N -> FHE.decrypt h e = FHE.decrypt h (fhe w)) /\
  FHE.decrypt hs e =
    folded b (getStakeCipher sender w)
      (FHE.decrypt (getStakeCipher sender w) (fhe w)) amount /\
  FHE.decrypt ht e =
    folded b (_totalStakedCipher w) (FHE.decrypt (_totalStakedCipher w) (fhe w)) amount.
Proof.
  unfold encrypted_bookkeeping, FHE.asEuint64. intros Hrun Hcs Hct.
  set (h := FHE.fresh (fhe w)) in *.
  set (e1 := FHE.store h _ _ (fhe w)) in *.
  destruct (update_with [this w; sender] _ h b e1) as [hs' e2] eqn:Hs.
  destruct (update_with [this w] _ h b e2) as [ht' e3] eqn:Ht.
  simplify_eq.
  assert (FHE.counter e1 = h) as Hc1 by done.
  assert (h = N.succ (FHE.counter (fhe w))) as Hh by done.
  assert (FHE.decrypt h e1 = amount mod 2 ^ 64) as Hd1 by apply decrypt_store_eq.
  assert (forall x, (x <= FHE.counter (fhe w))%N ->
                    FHE.decrypt x e1 = FHE.decrypt x (fhe w)) as Hold1.
  { intros x Hx. apply decrypt_store_ne. lia. }
  apply update_with_spec in Hs as (Hs0 & Hs1 & Hs2 & Hs3 & Hs4); [|lia..].
  apply update_with_spec in Ht as (Ht0 & Ht1 & Ht2 & Ht3 & Ht4); [|lia..].
  change (FHE.counter (FHE.allow _ _ (FHE.allow _ _ e3))) with (FHE.counter e3).
  change (FHE.decrypt ?x (FHE.allow _ _ (FHE.allow _ _ e3))) with (FHE.decrypt x e3).
  repeat split; try done; try lia.
  - intros x Hx. rewrite Ht3, Hs3, Hold1 by lia. done.
  - rewrite Ht3, Hs4, Hd1, Hold1 by lia. unfold folded.
    by destruct (FHE.isInitialized _), b.
  - rewrite Ht4, !Hs3, Hd1, Hold1 by lia. unfold folded.
    by destruct (FHE.isInitialized _), b.
Qed.

Lemma isInitialized_true h : FHE.isInitialized h = true <-> h <> 0%N.
Proof. unfold FHE.isInitialized. rewrite negb_true_iff. apply N.eqb_neq. Qed.

Lemma isInitialized_false h : FHE.isInitialized h = false <-> h = 0%N.
Proof. unfold FHE.isInitialized. rewrite negb_false_iff. apply N.eqb_eq. Qed.

(** The arithmetic behind the mirror: an accumulator that held [old mod 2^64],
    or nothing while [old] was zero, holds the new value modulo [2^64]. *)
Lemma folded_mirror (b : bool) current (held old amount : Z) :
  (current = 0%N -> old = 0) ->
  (current <> 0%N -> held = old mod 2 ^ 64) ->
  (b = false -> 0 < amount <= old) ->
  folded b current held amount =
    (if b then old + amount else old - amount) mod 2 ^ 64.
Proof.
  intros Hblank Hheld Hsub. unfold folded.
  destruct (FHE.isInitialized current) eqn:Hinit.
  - apply isInitialized_true in Hinit. rewrite (Hheld Hinit).
    destruct b; symmetry; [by apply Z.add_mod | apply Zminus_mod].
  - apply isInitialized_false in Hinit. specialize (Hblank Hinit).
    destruct b; [by rewrite Hblank | specialize (Hsub eq_refl); lia].
Qed.

Lemma mirrored_write (b : bool) w s amount hs ht e (r : Registry) evs :
  mirrored w ->
  (b = false -> 0 < amount <= getStake s w /\ amount <= _totalStaked w) ->
  encrypted_bookkeeping b s amount w = (hs, ht, e) ->
  mirrored
    (mkWorld (this w) (token w)
       (<[s := if b then getStake s w + amount else getStake s w - amount]> (_stakes w))
       (<[s := hs]> (_stakesCipher w))
       (if b then _totalStaked w + amount else _totalStaked w - amount)
       ht e r evs).
Proof.
  intros [Hk Hkt Hb Hm Hbt Hmt] Hsub Hrun.
  apply bookkeeping_spec in Hrun
    as (Hs0 & Ht0 & Hs1 & Ht1 & Hmono & Hold & Hds & Hdt); [|done..].
  split; unfold getStakeCipher, getStake in *; cbn.
  - intros a. rewrite lookup_insert. case_decide; cbn; [done|].
    specialize (Hk a). lia.
  - done.
  - intros a. rewrite !lookup_insert. case_decide; cbn; [done | apply Hb].
  - intros a. rewrite !lookup_insert. case_decide as Ha; cbn.
    + subst a. intros _. rewrite Hds. apply folded_mirror; [apply Hb | apply Hm |].
      intros Hf. by destruct (Hsub Hf).
    + intros Hinit. rewrite Hold by apply Hk. by apply Hm.
  - done.
  - intros _. rewrite Hdt. apply folded_mirror; [done | done |].
    intros Hf. destruct (Hsub Hf). lia.
Qed.

Lemma mirrored_perform c w w' :
  mirrored w -> perform c w = (Ok tt, w') -> mirrored w'.
Proof.
  intros Hw Hrun. destruct c as [s a|s a]; cbn in *.
  - apply stake_inv in Hrun as (_ & _ & _ & _ & r & hs & ht & e & _ & Hbk & ->).
    by apply (mirrored_write true).
  - apply withdraw_inv in Hrun
      as (Hu%is_uint64_spec & Hnz & Hle & Hlet & r & hs & ht & e & _ & Hbk & ->).
    apply (mirrored_write false); [done | intros _; lia | done].
Qed.

Lemma mirrored_step w s : mirrored w -> mirrored (step w s).
Proof.
  intros Hw.
  destruct (step_cases w s) as [(c & w' & _ & Hrun & ->)|[->|[r ->]]];
    [by eapply mirrored_perform | done | by destruct Hw].
Qed.

Lemma mirrored_constructor self tokenAddress_ r w :
  constructor self tokenAddress_ r = Ok w -> mirrored w.
Proof. intros [_ ->]%constructor_inv. by split. Qed.

(** In every reachable state each initialised ciphertext decrypts to the
    plaintext figure modulo [2^64]. *)
Lemma reachable_mirrored w : reachable w -> mirrored w.
Proof.
  apply reachable_invariant; eauto using mirrored_constructor, mirrored_step.
Qed.

End Mirror.

(** ** Requests seen by the engine *)

Section Requests.
Context {Registry : Type} `{!ERC7984 Registry}.
Implicit Types (w : World Registry) (e : FHE.State) (h : euint64).

Lemma encryptions_app tr1 tr2 :
  FHE.encryptions (tr1 ++ tr2) = (FHE.encryptions tr1 + FHE.encryptions tr2)%nat.
Proof. unfold FHE.encryptions. by rewrite List.filter_app, length_app. Qed.

Lemma encryptions_allow h ps : FHE.encryptions (map (FHE.Allow h) ps) = 0%nat.
Proof. by induction ps. Qed.

(** An accumulator update asks for at most one combination and for rights;
    it never encrypts, and it leaves the rights already granted in place. *)
Lemma update_with_requests ps cur delta (b : bool) e h' e' :
  update_with ps cur delta b e = (h', e') ->
  (exists ops, FHE.trace e' = FHE.trace e ++ ops /\ FHE.encryptions ops = 0%nat) /\
  (forall x, x ∈ FHE.acl e -> x ∈ FHE.acl e') /\
  (forall p, p ∈ ps -> (h', p) ∈ FHE.acl e').
Proof.
  unfold update_with. intros Hrun.
  assert (exists e1 ops,
            e' = grant_decrypt h' ps e1 /\ FHE.acl e1 = FHE.acl e /\
            FHE.trace e1 = FHE.trace e ++ ops /\ FHE.encryptions ops = 0%nat)
    as (e1 & ops & -> & Hacl & Htr & Hops).
  { destruct (FHE.isInitialized cur); cbn in Hrun.
    - destruct b; cbn in Hrun; simplify_eq; do 2 eexists; cbn; eauto.
    - simplify_eq. exists e, []. by rewrite app_nil_r. }
  split; [|split].
  - exists (ops ++ map (FHE.Allow h') ps).
    rewrite grant_decrypt_trace, Htr, <- app_assoc, encryptions_app, encryptions_allow.
    split; [done | lia].
  - intros x Hx. apply grant_decrypt_acl. left. by rewrite Hacl.
  - intros p Hp. apply grant_decrypt_acl. right. eauto.
Qed.

Lemma bookkeeping_unfold (b : bool) s a w hs ht e :
  encrypted_bookkeeping b s a w = (hs, ht, e) ->
  exists e2 e3,
    update_with [this w; s] (getStakeCipher s w) (FHE.fresh (fhe w)) b
      (FHE.asEuint64 a (fhe w)).2 = (hs, e2) /\
    update_with [this w] (_totalStakedCipher w) (FHE.fresh (fhe w)) b e2 = (ht, e3) /\
    e = FHE.allow (FHE.fresh (fhe w)) (token w)
          (FHE.allow (FHE.fresh (fhe w)) (this w) e3).
Proof.
  unfold encrypted_bookkeeping, FHE.asEuint64. cbn. intros Hrun.
  destruct (update_with [this w; s] _ _ b _) as [hs' e2] eqn:Hs.
  destruct (update_with [this w] _ _ b e2) as [ht' e3] eqn:Ht.
  simplify_eq. eauto.
Qed.

(** The storage a successful call leaves, seen from outside. *)
Lemma perform_inv c w w' :
  perform c w = (Ok tt, w') ->
  0 < amount_of c <= uint64_max /\
  this w' = this w /\ token w' = token w /\
  _stakes w' =
    <[caller c := if is_deposit c then getStake (caller c) w + amount_of c
                  else getStake (caller c) w - amount_of c]> (_stakes w) /\
  _totalStaked w' =
    (if is_deposit c then _totalStaked w + amount_of c
     else _totalStaked w - amount_of c) /\
  (exists hs, _stakesCipher w' = <[caller c := hs]> (_stakesCipher w) /\
    encrypted_bookkeeping (is_deposit c) (caller c) (amount_of c) w =
      (hs, _totalStakedCipher w', fhe w')) /\
  transfer_step c w = Some (registry w') /\
  events w' = events w ++ [if is_deposit c then Staked (caller c) (amount_of c)
                           else Withdrawn (caller c) (amount_of c)].
Proof.
  intros Hrun. destruct c as [s a|s a]; cbn in *.
  - apply stake_inv in Hrun
      as (Hu%is_uint64_spec & Hnz & _ & _ & r & hs & ht & e & Hr & Hbk & ->).
    cbn. repeat split; try done; try lia. eauto.
  - apply withdraw_inv in Hrun
      as (Hu%is_uint64_spec & Hnz & _ & _ & r & hs & ht & e & Hr & Hbk & ->).
    cbn. repeat split; try done; try lia. eauto.
Qed.

Lemma getStake_insert w w' a v b :
  _stakes w' = <[a := v]> (_stakes w) ->
  getStake b w' = if decide (a = b) then v else getStake b w.
Proof. intros Hs. unfold getStake. rewrite Hs, lookup_insert. by case_decide. Qed.

Lemma getStakeCipher_insert w w' a v b :
  _stakesCipher w' = <[a := v]> (_stakesCipher w) ->
  getStakeCipher b w' = if decide (a = b) then v else getStakeCipher b w.
Proof. intros Hs. unfold getStakeCipher. rewrite Hs, lookup_insert. by case_decide. Qed.

End Requests.

Lemma reachable_replay steps g : reachable (replay steps (genesis g)).
Proof. by exists vault_address, token_address, g, (genesis g), steps. Qed.

(** ** The properties of the ledger *)

Section Properties.
Context {Registry : Type} `{!ERC7984 Registry}.
Implicit Types (w : World Registry) (sender user : address) (amount : Z) (c : Call).

(** C2 (atomicity).  If the token rejects the confidential transfer that a
    deposit or a withdrawal requests, the call fails and the storage after it
    is the storage before it: the account's plaintext and encrypted stake and
    the plaintext and encrypted totals are unchanged. *)
Theorem C2_rejected_transfer_leaves_no_trace c w :
  transfer_step c w = None ->
  exists e,
    transact (perform c) w = (Failure e, w) /\
    let w' := snd (transact (perform c) w) in
    getStake (caller c) w' = getStake (caller c) w /\
    getStakeCipher (caller c) w' = getStakeCipher (caller c) w /\
    getTotalStaked w' = getTotalStaked w /\
    getTotalStakedCipher w' = getTotalStakedCipher w.
Proof.
  intros (e & w'' & Hrun)%rejected_reverts.
  exists e. unfold transact. by rewrite Hrun.
Qed.

(** C3 (conservation).  In every reachable state the plaintext total is the
    sum of all plaintext stakes, and it still is after any further deposit or
    withdrawal, whether the call succeeds or fails. *)
Theorem C3_total_is_sum_of_stakes w :
  reachable w ->
  getTotalStaked w = sum_stakes (_stakes w) /\
  forall c, let w' := snd (transact (perform c) w) in
            getTotalStaked w' = sum_stakes (_stakes w').
Proof.
  intros Hw%reachable_solvent. split; [apply Hw|].
  intros c. apply (solvent_step w (Invoke c) Hw).
Qed.

(** C4.  A successful deposit of [amount] by [sender] has a positive amount,
    raises the sender's plaintext stake and the plaintext total by exactly
    [amount], and emits [Staked (sender, amount)] with the amount in clear. *)
Theorem C4_deposit_effect w sender amount w' :
  transact (stake sender amount) w = (Success, w') ->
  0 < amount /\
  getStake sender w' = getStake sender w + amount /\
  getTotalStaked w' = getTotalStaked w + amount /\
  events w' = events w ++ [Staked sender amount].
Proof.
  intros Hrun%transact_success.
  apply (perform_inv (CallStake sender amount)) in Hrun
    as (Ha & _ & _ & Hs & Ht & _ & _ & Hev); cbn in *.
  rewrite (getStake_insert w w' _ _ sender Hs), decide_True by done.
  repeat split; [lia | done..].
Qed.

(** C5 (boundaries).  A deposit or a withdrawal of zero fails with
    [InvalidAmount] and the storage at the point of failure is untouched; a
    withdrawal of a positive amount fails with [InsufficientStake] exactly
    when the amount exceeds the sender's plaintext stake; and withdrawing the
    whole stake, when the token carries out the transfer, succeeds and leaves
    an entry holding zero, so that later reads return zero. *)
Theorem C5_boundaries w sender amount :
  reachable w ->
  0 < amount <= uint64_max ->
  stake sender 0 w = (Revert InvalidAmount, w) /\
  withdraw sender 0 w = (Revert InvalidAmount, w) /\
  (fst (transact (withdraw sender amount) w) = Failure InsufficientStake <->
   getStake sender w < amount) /\
  (amount = getStake sender w ->
   confidentialTransfer (this w) sender (FHE.fresh (fhe w)) (registry w) <> None ->
   exists w',
     transact (withdraw sender amount) w = (Success, w') /\
     _stakes w' !! sender = Some 0 /\
     getStake sender w' = 0).
Proof.
  intros Hw%reachable_solvent Hamount.
  split; [apply stake_zero|]. split; [apply withdraw_zero|]. split.
  - rewrite <- (withdraw_insufficient w sender amount Hamount).
    unfold transact. destruct (withdraw sender amount w) as [[[]|e] w'']; cbn;
      split; intros; by simplify_eq.
  - intros Hall Hr.
    destruct (confidentialTransfer _ _ _ _) as [r|] eqn:Htr; [clear Hr | done].
    pose proof (solvent_stake_le_total w sender Hw) as Hle.
    destruct (withdraw_succeeds w sender amount r) as [w' Hrun]; [lia..|done|].
    exists w'. split; [by apply transact_success|].
    apply (perform_inv (CallWithdraw sender amount)) in Hrun
      as (_ & _ & _ & Hs & _); cbn in Hs.
    rewrite (getStake_insert w w' _ _ sender Hs), decide_True by done.
    rewrite Hs, lookup_insert_eq, Hall. split; [f_equal; lia | lia].
Qed.

(** C10.  In every reachable state a withdrawal that passes the per-account
    check also fits in the plaintext total, so [withdraw] never stops on an
    arithmetic underflow. *)
Theorem C10_total_never_underflows w sender amount :
  reachable w ->
  (amount <= getStake sender w -> amount <= getTotalStaked w) /\
  fst (withdraw sender amount w) <> Revert Panic.
Proof.
  intros Hw%reachable_solvent.
  pose proof (solvent_stake_le_total w sender Hw) as Htot.
  split; [unfold getTotalStaked; lia|].
  apply withdraw_never_panics. lia.
Qed.



(** C8.  Two deposits by distinct accounts commute on the plaintext state:
    either order leaves the same stake table and the same total; the total
    has grown by the sum of the two amounts and each account's stake by its
    own amount only (from an empty ledger: total [a + b], stakes [a] and
    [b]); no deposit touches another account's entry. *)
Theorem C8_deposits_commute w X Y a b w1 wXY w2 wYX :
  X <> Y ->
  transact (stake X a) w = (Success, w1) ->
  transact (stake Y b) w1 = (Success, wXY) ->
  transact (stake Y b) w = (Success, w2) ->
  transact (stake X a) w2 = (Success, wYX) ->
  _stakes wXY = _stakes wYX /\
  getTotalStaked wXY = getTotalStaked wYX /\
  getTotalStaked wXY = getTotalStaked w + (a + b) /\
  getStake X wXY = getStake X w + a /\
  getStake Y wXY = getStake Y w + b /\
  getStake Y w1 = getStake Y w /\
  getStake X w2 = getStake X w /\
  forall other, other <> X -> other <> Y -> getStake other wXY = getStake other w.
Proof.
  intros Hne H1%transact_success H2%transact_success
         H3%transact_success H4%transact_success.
  apply (perform_inv (CallStake X a)) in H1 as (_ & _ & _ & Hs1 & Ht1 & _).
  apply (perform_inv (CallStake Y b)) in H2 as (_ & _ & _ & Hs2 & Ht2 & _).
  apply (perform_inv (CallStake Y b)) in H3 as (_ & _ & _ & Hs3 & Ht3 & _).
  apply (perform_inv (CallStake X a)) in H4 as (_ & _ & _ & Hs4 & Ht4 & _).
  cbn in *.
  assert (getStake Y w1 = getStake Y w) as HY.
  { by rewrite (getStake_insert w w1 _ _ Y Hs1), decide_False. }
  assert (getStake X w2 = getStake X w) as HX.
  { by rewrite (getStake_insert w w2 _ _ X Hs3), decide_False. }
  unfold getTotalStaked.
  split. { rewrite Hs2, Hs4, Hs1, Hs3, HY, HX. by apply insert_insert_ne. }
  split; [lia|]. split; [lia|].
  split. { rewrite (getStake_insert w1 wXY _ _ X Hs2), decide_False by done.
           by rewrite (getStake_insert w w1 _ _ X Hs1), decide_True. }
  split. { rewrite (getStake_insert w1 wXY _ _ Y Hs2), decide_True by done.
           by rewrite HY. }
  split; [done|]. split; [done|].
  intros other HoX HoY.
  rewrite (getStake_insert w1 wXY _ _ other Hs2), decide_False by done.
  by rewrite (getStake_insert w w1 _ _ other Hs1), decide_False.
Qed.

End Properties.

(** ** Widths *)

(** While a plaintext figure fits in 64 bits its mirror is exact. *)
Lemma mirror_exact_below_2_64 {Registry : Type} `{!ERC7984 Registry}
    (w : World Registry) (a : address) :
  reachable w ->
  (getStake a w <= uint64_max ->
   FHE.isInitialized (getStakeCipher a w) = true ->
   FHE.decrypt (getStakeCipher a w) (fhe w) = getStake a w) /\
  (getTotalStaked w <= uint64_max ->
   FHE.isInitialized (getTotalStakedCipher w) = true ->
   FHE.decrypt (getTotalStakedCipher w) (fhe w) = getTotalStaked w).
Proof.
  intros Hw.
  pose proof (reachable_solvent w Hw) as Hsolv.
  pose proof (getStake_nonneg w a Hsolv) as Hge.
  pose proof (solvent_stake_le_total w a Hsolv) as Hle.
  unfold getTotalStaked, getTotalStakedCipher, uint64_max.
  split; intros Hfit Hinit%isInitialized_true.
  - rewrite (mirrored_stake w (reachable_mirrored w Hw) a Hinit).
    apply Z.mod_small. lia.
  - rewrite (mirrored_total w (reachable_mirrored w Hw) Hinit).
    apply Z.mod_small. lia.
Qed.

(** C9.  A call that succeeds carries an amount in [1, 2^64 - 1].  The
    plaintext stake and total are updated with exact integer arithmetic and
    stay within 256 bits, while the encrypted accumulators hold 64-bit values:
    homomorphic addition and subtraction work modulo [2^64], so each mirror
    holds the plaintext figure modulo [2^64].  Repeated deposits take a
    plaintext stake past [2^64 - 1], at which point its mirror has wrapped. *)
Theorem C9_amounts_and_widths {Registry : Type} `{!ERC7984 Registry}
    (w : World Registry) (c : Call) (w' : World Registry) :
  reachable w ->
  transact (perform c) w = (Success, w') ->
  0 < amount_of c <= uint64_max /\
  getStake (caller c) w' =
    (if is_deposit c then getStake (caller c) w + amount_of c
     else getStake (caller c) w - amount_of c) /\
  getTotalStaked w' =
    (if is_deposit c then getTotalStaked w + amount_of c
     else getTotalStaked w - amount_of c) /\
  0 <= getStake (caller c) w' <= getTotalStaked w' /\
  getTotalStaked w' <= uint256_max /\
  FHE.decrypt (getStakeCipher (caller c) w') (fhe w') = getStake (caller c) w' mod 2 ^ 64 /\
  FHE.decrypt (getTotalStakedCipher w') (fhe w') = getTotalStaked w' mod 2 ^ 64 /\
  (forall a b e,
     FHE.decrypt (FHE.add a b e).1 (FHE.add a b e).2 =
       (FHE.decrypt a e + FHE.decrypt b e) mod 2 ^ 64 /\
     FHE.decrypt (FHE.sub a b e).1 (FHE.sub a b e).2 =
       (FHE.decrypt a e - FHE.decrypt b e) mod 2 ^ 64) /\
  (reachable twice_max /\
   uint64_max < getStake alice twice_max /\
   FHE.decrypt (getStakeCipher alice twice_max) (fhe twice_max) =
     getStake alice twice_max - 2 ^ 64).
Proof.
  intros Hw Hrun%transact_success.
  pose proof (solvent_perform c w w' (reachable_solvent w Hw) Hrun) as Hsolv.
  pose proof (mirrored_perform c w w' (reachable_mirrored w Hw) Hrun) as Hmir.
  pose proof (mirrored_known w (reachable_mirrored w Hw) (caller c)) as Hks.
  pose proof (mirrored_known_total w (reachable_mirrored w Hw)) as Hkt.
  apply perform_inv in Hrun as (Ha & _ & _ & Hs & Ht & (hs & Hsc & Hbk) & _).
  apply bookkeeping_spec in Hbk as (Hs0 & Ht0 & _); [|done..].
  assert (getStakeCipher (caller c) w' = hs) as Hhs.
  { by rewrite (getStakeCipher_insert w w' _ _ _ Hsc), decide_True. }
  split; [done|]. split.
  { by rewrite (getStake_insert w w' _ _ _ Hs), decide_True. }
  split; [done|]. split.
  { split; [by apply getStake_nonneg | by apply solvent_stake_le_total]. }
  split; [apply Hsolv|]. split.
  { apply Hmir. by rewrite Hhs. }
  split; [by apply Hmir|]. split.
  { intros a b e. split; [apply decrypt_add | apply decrypt_sub]. }
  split; [apply reachable_replay|]. by vm_compute.
Qed.

(** ** Scenarios *)

Lemma reachable_after_deposit : reachable after_deposit.
Proof. exact (reachable_replay [Invoke (CallStake alice 5000000)] Open). Qed.

Lemma reachable_two_stakers : reachable two_stakers.
Proof.
  exact (reachable_replay
           [Invoke (CallStake alice 5000000); Invoke (CallStake bob 7)] Open).
Qed.

Lemma withdraw_after_deposit :
  perform (CallWithdraw alice 2000000) after_deposit = (Ok tt, after_withdraw).
Proof. by vm_compute. Qed.

(** The run of the repository's test: deposit 5_000_000, read the three
    figures, withdraw 2_000_000, read them again. *)
Example stakes_and_withdraws :
  events after_deposit = [Staked alice 5000000] /\
  getStake alice after_deposit = 5000000 /\
  getTotalStaked after_deposit = 5000000 /\
  FHE.isInitialized (getStakeCipher alice after_deposit) = true /\
  FHE.decrypt (getStakeCipher alice after_deposit) (fhe after_deposit) = 5000000 /\
  events after_withdraw = [Staked alice 5000000; Withdrawn alice 2000000] /\
  getStake alice after_withdraw = 3000000 /\
  getTotalStaked after_withdraw = 3000000 /\
  FHE.decrypt (getStakeCipher alice after_withdraw) (fhe after_withdraw) = 3000000.
Proof. repeat apply conj; by vm_compute. Qed.

Example reverts_on_invalid_amounts :
  transact (stake alice 0) (genesis Open) = (Failure InvalidAmount, genesis Open) /\
  transact (withdraw alice 1) (genesis Open) = (Failure InsufficientStake, genesis Open) /\
  transact (withdraw alice 4000000) after_withdraw
    = (Failure InsufficientStake, after_withdraw).
Proof. repeat apply conj; by vm_compute. Qed.

(** C1, at the input where the code departs from it.  [alice] deposits
    [2^64 - 1] twice and the token carries out both transfers.  Both calls
    complete; her encrypted stake and the encrypted total are initialised; the
    plaintext stake and total are [2^65 - 2], yet both ciphertexts decrypt to
    [2^64 - 2]. *)
Theorem C1_mirror_diverges_past_64_bits :
  transact (stake alice uint64_max) (genesis Open) = (Success, once_max) /\
  transact (stake alice uint64_max) once_max = (Success, twice_max) /\
  FHE.isInitialized (getStakeCipher alice twice_max) = true /\
  getStake alice twice_max = 36893488147419103230 /\
  FHE.decrypt (getStakeCipher alice twice_max) (fhe twice_max) = 18446744073709551614 /\
  FHE.isInitialized (getTotalStakedCipher twice_max) = true /\
  getTotalStaked twice_max = 36893488147419103230 /\
  FHE.decrypt (getTotalStakedCipher twice_max) (fhe twice_max) = 18446744073709551614.
Proof. repeat apply conj; by vm_compute. Qed.


Lemma C2_witness :
  transfer_step (CallStake alice 5000000) (genesis Shut) = None /\
  exists e,
    transact (perform (CallStake alice 5000000)) (genesis Shut) = (Failure e, genesis Shut).
Proof.
  assert (transfer_step (CallStake alice 5000000) (genesis Shut) = None) as Hshut
    by reflexivity.
  split; [exact Hshut|].
  destruct (C2_rejected_transfer_leaves_no_trace _ _ Hshut) as (e & He & _).
  by exists e.
Defined.

Lemma C3_witness :
  reachable two_stakers /\
  getTotalStaked two_stakers = sum_stakes (_stakes two_stakers).
Proof.
  split; [exact reachable_two_stakers|].
  exact (proj1 (C3_total_is_sum_of_stakes two_stakers reachable_two_stakers)).
Defined.

Lemma C4_witness :
  transact (stake alice 5000000) (genesis Open) = (Success, after_deposit) /\
  0 < 5000000 /\
  getStake alice after_deposit = 5000000 /\
  getTotalStaked after_deposit = 5000000 /\
  events after_deposit = [Staked alice 5000000].
Proof.
  assert (transact (stake alice 5000000) (genesis Open) = (Success, after_deposit))
    as Hrun by (by vm_compute).
  split; [exact Hrun|].
  exact (C4_deposit_effect (genesis Open) alice 5000000 after_deposit Hrun).
Defined.

Lemma C5_witness :
  reachable after_deposit /\
  0 < 5000000 <= uint64_max /\
  stake alice 0 after_deposit = (Revert InvalidAmount, after_deposit).
Proof.
  assert (0 < 5000000 <= uint64_max) as Hamount by (by vm_compute).
  split; [exact reachable_after_deposit|]. split; [exact Hamount|].
  exact (proj1 (C5_boundaries after_deposit alice 5000000
                  reachable_after_deposit Hamount)).
Defined.



Lemma C8_witness :
  alice <> bob /\
  let wa := snd (transact (stake alice 1000000) (genesis Open)) in
  let wb := snd (transact (stake bob 1000000) (genesis Open)) in
  let wab := snd (transact (stake bob 1000000) wa) in
  let wba := snd (transact (stake alice 1000000) wb) in
  _stakes wab = _stakes wba /\ getTotalStaked wab = getTotalStaked wba /\
  getTotalStaked wab = getTotalStaked (genesis Open) + (1000000 + 1000000).
Proof.
  assert (alice <> bob) as Hne by done.
  split; [exact Hne|]. intros wa wb wab wba.
  assert (transact (stake alice 1000000) (genesis Open) = (Success, wa)) as H1
    by (by vm_compute).
  assert (transact (stake bob 1000000) wa = (Success, wab)) as H2 by (by vm_compute).
  assert (transact (stake bob 1000000) (genesis Open) = (Success, wb)) as H3
    by (by vm_compute).
  assert (transact (stake alice 1000000) wb = (Success, wba)) as H4 by (by vm_compute).
  destruct (C8_deposits_commute _ _ _ _ _ _ _ _ _ Hne H1 H2 H3 H4)
    as (Hs & Ht & Hsum & _).
  exact (conj Hs (conj Ht Hsum)).
Defined.

Lemma C9_witness :
  reachable after_deposit /\
  transact (perform (CallWithdraw alice 2000000)) after_deposit = (Success, after_withdraw) /\
  0 < 2000000 <= uint64_max.
Proof.
  assert (transact (perform (CallWithdraw alice 2000000)) after_deposit
          = (Success, after_withdraw)) as Hrun by (by vm_compute).
  split; [exact reachable_after_deposit|]. split; [exact Hrun|].
  exact (proj1 (C9_amounts_and_widths after_deposit (CallWithdraw alice 2000000)
                  after_withdraw reachable_after_deposit Hrun)).
Defined.

Lemma C10_witness :
  reachable after_deposit /\
  fst (withdraw alice 2000000 after_deposit) <> Revert Panic.
Proof.
  split; [exact reachable_after_deposit|].
  exact (proj2 (C10_total_never_underflows after_deposit alice 2000000
                  reachable_after_deposit)).
Defined.

(** ** Further properties of the contract *)

Section Outcomes.
Context {Registry : Type} `{!ERC7984 Registry}.
Implicit Types (w : World Registry) (sender user : address) (amount : Z) (c : Call).

Ltac contract_unfold :=
  unfold stake, withdraw, _updateEncryptedStake, _updateTotalEncryptedStake,
    FHE_asEuint64, FHE_add, FHE_sub, FHE_allowThis, FHE_allow,
    token_confidentialTransferFrom, token_confidentialTransfer,
    emit, modify, gets, require, checked_add, checked_sub, bind, ret, revert,
    getStakeCipher, FHE.asEuint64, FHE.add, FHE.sub in *.

(** The checks of a call in the order the code makes them.  In a reachable
    state the two subtractions of [withdraw] and the first addition of [stake]
    cannot fail, which leaves the overflow of the total as the only arithmetic
    failure. *)
Lemma call_answer c w :
  reachable w ->
  fst (transact (perform c) w) =
    if negb (is_uint64 (amount_of c)) then Failure AbiDecode
    else if amount_of c =? 0 then Failure InvalidAmount
    else if negb (is_deposit c) && (getStake (caller c) w <? amount_of c)
    then Failure InsufficientStake
    else if is_deposit c && (uint256_max <? getTotalStaked w + amount_of c)
    then Failure Panic
    else match transfer_step c w with
         | Some _ => Success
         | None => Failure TransferReverted
         end.
Proof.
  intros Hw%reachable_solvent.
  pose proof (solvent_stake_le_total w (caller c) Hw) as Hle.
  destruct c as [s a|s a];
    cbn [perform caller amount_of is_deposit transfer_step negb andb] in *;
    unfold transact, getTotalStaked; contract_unfold; cbn.
  - repeat (case_match; simplify_eq/=); try done; try lia.
    all: match goal with H : is_uint64 _ = true |- _ => apply is_uint64_spec in H end; lia.
  - repeat (case_match; simplify_eq/=); try done; lia.
Qed.

(** The answer of [withdraw] in a reachable state, check by check: a value
    that is not a [uint64], then a zero amount, then an amount above the stake,
    then the token's refusal; otherwise the call completes.  It never stops on
    an arithmetic failure. *)
Theorem withdraw_outcome w sender amount :
  reachable w ->
  fst (transact (withdraw sender amount) w) =
    if negb (is_uint64 amount) then Failure AbiDecode
    else if amount =? 0 then Failure InvalidAmount
    else if getStake sender w <? amount then Failure InsufficientStake
    else match confidentialTransfer (this w) sender (FHE.fresh (fhe w)) (registry w) with
         | Some _ => Success
         | None => Failure TransferReverted
         end.
Proof. intros Hw. exact (call_answer (CallWithdraw sender amount) w Hw). Qed.


(** A successful withdrawal takes exactly [amount] off the sender's stake and
    off the total, and emits [Withdrawn (sender, amount)]. *)
Theorem withdraw_effect w sender amount w' :
  transact (withdraw sender amount) w = (Success, w') ->
  0 < amount <= getStake sender w /\
  getStake sender w' = getStake sender w - amount /\
  getTotalStaked w' = getTotalStaked w - amount /\
  events w' = events w ++ [Withdrawn sender amount].
Proof.
  intros Hrun%transact_success.
  pose proof (withdraw_inv _ _ _ _ Hrun) as (Hu%is_uint64_spec & Hnz & Hle & _).
  apply (perform_inv (CallWithdraw sender amount)) in Hrun
    as (_ & _ & _ & Hs & Ht & _ & _ & Hev); cbn in *.
  rewrite (getStake_insert w w' _ _ sender Hs), decide_True by done.
  repeat split; [lia | done..].
Qed.

(** A completed call writes to the caller's entries only: every other
    account keeps its stake, its handle and what the handle decrypts to. *)
Theorem others_untouched c w w' other :
  reachable w ->
  perform c w = (Ok tt, w') ->
  other <> caller c ->
  getStake other w' = getStake other w /\
  getStakeCipher other w' = getStakeCipher other w /\
  FHE.decrypt (getStakeCipher other w') (fhe w') =
    FHE.decrypt (getStakeCipher other w) (fhe w).
Proof.
  intros Hw%reachable_mirrored Hrun Hother.
  apply perform_inv in Hrun as (_ & _ & _ & Hs & _ & (hs & Hsc & Hbk) & _).
  apply bookkeeping_spec in Hbk as (_ & _ & _ & _ & _ & Hold & _);
    [|apply Hw..].
  rewrite (getStake_insert w w' _ _ other Hs), decide_False by done.
  rewrite (getStakeCipher_insert w w' _ _ other Hsc), decide_False by done.
  repeat split. apply Hold, Hw.
Qed.

(** An account whose handle is not initialised has no stake; and while the
    total handle is not initialised nobody has any. *)
Theorem blank_handle_means_no_stake w a :
  reachable w ->
  (FHE.isInitialized (getStakeCipher a w) = false -> getStake a w = 0) /\
  (FHE.isInitialized (getTotalStakedCipher w) = false ->
   getTotalStaked w = 0 /\ getStake a w = 0).
Proof.
  intros Hw. pose proof (reachable_mirrored w Hw) as Hm.
  pose proof (reachable_solvent w Hw) as Hs.
  split.
  - intros Hblank%isInitialized_false. by apply Hm.
  - intros Hblank%isInitialized_false.
    pose proof (mirrored_blank_total w Hm Hblank) as Hzero.
    pose proof (getStake_nonneg w a Hs). pose proof (solvent_stake_le_total w a Hs).
    unfold getTotalStaked. lia.
Qed.

End Outcomes.

(** ** Handles and rights over a history *)

Section Handles.
Context {Registry : Type} `{!ERC7984 Registry}.
Implicit Types (w : World Registry) (sender user : address) (amount : Z) (c : Call).

Lemma update_with_nonzero ps cur delta (b : bool) e h' e' :
  update_with ps cur delta b e = (h', e') -> delta <> 0%N -> h' <> 0%N.
Proof.
  unfold update_with. intros Hrun Hdelta.
  destruct (FHE.isInitialized cur); cbn in Hrun; [|by simplify_eq].
  destruct b; cbn in Hrun; simplify_eq; unfold FHE.fresh; lia.
Qed.

(** After a completed call the caller's handle and the total handle are
    initialised. *)
Lemma perform_initialises c w w' :
  perform c w = (Ok tt, w') ->
  getStakeCipher (caller c) w' <> 0%N /\ _totalStakedCipher w' <> 0%N.
Proof.
  intros Hrun.
  apply perform_inv in Hrun as (_ & _ & _ & _ & _ & (hs & Hsc & Hbk) & _).
  apply bookkeeping_unfold in Hbk as (e2 & e3 & Hs & Ht & _).
  assert (FHE.fresh (fhe w) <> 0%N) as Hfresh by (unfold FHE.fresh; lia).
  rewrite (getStakeCipher_insert w w' _ _ _ Hsc), decide_True by done.
  split; eapply update_with_nonzero; eauto.
Qed.

Lemma step_keeps_handles w s a :
  (getStakeCipher a w <> 0%N -> getStakeCipher a (step w s) <> 0%N) /\
  (_totalStakedCipher w <> 0%N -> _totalStakedCipher (step w s) <> 0%N).
Proof.
  destruct (step_cases w s) as [(c & w' & _ & Hrun & ->)|[->|[r ->]]]; [|done..].
  pose proof (perform_initialises c w w' Hrun) as [Hs Ht].
  split; [|done]. intros Ha.
  destruct (decide (caller c = a)) as [<-|Hne]; [done|].
  apply perform_inv in Hrun as (_ & _ & _ & _ & _ & (hs & Hsc & _) & _).
  by rewrite (getStakeCipher_insert w w' _ _ a Hsc), decide_False.
Qed.

(** Once initialised, a handle is never reset: whatever calls follow, the
    account's handle and the total handle stay initialised. *)
Theorem handles_stay_initialised steps w a :
  (FHE.isInitialized (getStakeCipher a w) = true ->
   FHE.isInitialized (getStakeCipher a (replay steps w)) = true) /\
  (FHE.isInitialized (getTotalStakedCipher w) = true ->
   FHE.isInitialized (getTotalStakedCipher (replay steps w)) = true).
Proof.
  unfold getTotalStakedCipher. rewrite !isInitialized_true. split; intros Hinit.
  - apply (replay_invariant (fun w => getStakeCipher a w <> 0%N)); [|done].
    intros w1 s. apply step_keeps_handles.
  - apply (replay_invariant (fun w => _totalStakedCipher w <> 0%N)); [|done].
    intros w1 s. apply (step_keeps_handles w1 s a).
Qed.

(** Withdrawing the whole stake does not bring the handle back to the
    uninitialised state: the account is left with an initialised handle that
    decrypts to zero. *)
Theorem emptied_stake_keeps_its_handle w sender w' :
  reachable w ->
  transact (withdraw sender (getStake sender w)) w = (Success, w') ->
  getStake sender w' = 0 /\
  FHE.isInitialized (getStakeCipher sender w') = true /\
  FHE.decrypt (getStakeCipher sender w') (fhe w') = 0.
Proof.
  intros Hw Hrun%transact_success.
  pose proof (mirrored_perform (CallWithdraw sender _) w w'
                (reachable_mirrored w Hw) Hrun) as Hm.
  pose proof (perform_initialises (CallWithdraw sender _) w w' Hrun) as [Hinit _].
  cbn in Hinit.
  apply (perform_inv (CallWithdraw sender _)) in Hrun as (_ & _ & _ & Hs & _); cbn in Hs.
  assert (getStake sender w' = 0) as Hzero.
  { rewrite (getStake_insert w w' _ _ sender Hs), decide_True by done. lia. }
  split; [done|]. split; [by apply isInitialized_true|].
  by rewrite (mirrored_stake w' Hm sender Hinit), Hzero.
Qed.

(** In every reachable state an initialised handle decrypts to the plaintext
    figure modulo [2^64], for every account and for the total. *)
Theorem mirror_modulo_2_64 w a :
  reachable w ->
  (FHE.isInitialized (getStakeCipher a w) = true ->
   FHE.decrypt (getStakeCipher a w) (fhe w) = getStake a w mod 2 ^ 64) /\
  (FHE.isInitialized (getTotalStakedCipher w) = true ->
   FHE.decrypt (getTotalStakedCipher w) (fhe w) = getTotalStaked w mod 2 ^ 64).
Proof.
  intros Hm%reachable_mirrored. rewrite !isInitialized_true.
  split; intros Hinit; by apply Hm.
Qed.

(** *** Rights *)

Lemma isAllowed_true h p e : FHE.isAllowed h p e = true <-> (h, p) ∈ FHE.acl e.
Proof. apply bool_decide_eq_true. Qed.

(** The rights a completed call leaves in the engine: none is withdrawn; the
    ledger and the caller hold rights on the caller's new handle, the ledger on
    the new total handle, the ledger and the token on the encrypted amount. *)
Lemma bookkeeping_rights (b : bool) s a w hs ht e :
  encrypted_bookkeeping b s a w = (hs, ht, e) ->
  (forall x, x ∈ FHE.acl (fhe w) -> x ∈ FHE.acl e) /\
  (hs, this w) ∈ FHE.acl e /\ (hs, s) ∈ FHE.acl e /\ (ht, this w) ∈ FHE.acl e /\
  (FHE.fresh (fhe w), this w) ∈ FHE.acl e /\
  (FHE.fresh (fhe w), token w) ∈ FHE.acl e.
Proof.
  intros (e2 & e3 & Hs & Ht & ->)%bookkeeping_unfold.
  pose proof (update_with_requests _ _ _ _ _ _ _ Hs) as (_ & Hkeep2 & Hgs).
  pose proof (update_with_requests _ _ _ _ _ _ _ Ht) as (_ & Hkeep3 & Hgt).
  cbn. repeat split.
  - intros x Hx. do 2 apply elem_of_union_r. by apply Hkeep3, Hkeep2.
  - do 2 apply elem_of_union_r. apply Hkeep3, Hgs. set_solver.
  - do 2 apply elem_of_union_r. apply Hkeep3, Hgs. set_solver.
  - do 2 apply elem_of_union_r. apply Hgt. set_solver.
  - set_solver.
  - set_solver.
Qed.

Lemma entitled_perform c w w' : entitled w -> perform c w = (Ok tt, w') -> entitled w'.
Proof.
  intros [Hl Ha Ht] Hrun.
  apply perform_inv in Hrun as (_ & Hthis & _ & _ & _ & (hs & Hsc & Hbk) & _).
  apply bookkeeping_rights in Hbk as (Hkeep & Hhl & Hha & Hht & _).
  split; rewrite ?Hthis.
  - intros a. rewrite (getStakeCipher_insert w w' _ _ a Hsc).
    case_decide; intros Hinit; apply isAllowed_true;
      [done | by apply Hkeep, isAllowed_true, Hl].
  - intros a. rewrite (getStakeCipher_insert w w' _ _ a Hsc).
    case_decide; intros Hinit; apply isAllowed_true;
      [by subst | by apply Hkeep, isAllowed_true, Ha].
  - intros _. by apply isAllowed_true.
Qed.

Lemma reachable_entitled w : reachable w -> entitled w.
Proof.
  apply reachable_invariant.
  - intros self tok r w0 [_ ->]%constructor_inv. by split.
  - intros w1 s Hw1.
    destruct (step_cases w1 s) as [(c & w' & _ & Hrun & ->)|[->|[r ->]]];
      [by eapply entitled_perform | done | by destruct Hw1].
Qed.

(** In every reachable state the ledger and the account both hold decryption
    rights on the account's current handle, and the ledger holds them on the
    current total handle. *)
Theorem stored_handles_are_readable w a :
  reachable w ->
  (FHE.isInitialized (getStakeCipher a w) = true ->
   FHE.isAllowed (getStakeCipher a w) (this w) (fhe w) = true /\
   FHE.isAllowed (getStakeCipher a w) a (fhe w) = true) /\
  (FHE.isInitialized (getTotalStakedCipher w) = true ->
   FHE.isAllowed (getTotalStakedCipher w) (this w) (fhe w) = true).
Proof.
  intros [Hl Ha Ht]%reachable_entitled. rewrite !isInitialized_true.
  split; [intros Hinit; split; auto | apply Ht].
Qed.

Lemma update_with_keeps ps cur delta (b : bool) e h' e' :
  update_with ps cur delta b e = (h', e') ->
  (FHE.counter e <= FHE.counter e')%N /\
  forall h, (h <= FHE.counter e)%N -> FHE.decrypt h e' = FHE.decrypt h e.
Proof.
  unfold update_with. intros Hrun.
  destruct (FHE.isInitialized cur); cbn in Hrun.
  - assert (exists v op, e' = grant_decrypt h' ps (FHE.store (FHE.fresh e) v op e))
      as (v & op & ->) by (destruct b; cbn in Hrun; simplify_eq; eauto).
    rewrite grant_decrypt_counter. cbn. unfold FHE.fresh. split; [lia|].
    intros h Hh. rewrite decrypt_grant, decrypt_store_ne; [done | lia].
  - simplify_eq. rewrite grant_decrypt_counter. split; [done|].
    intros h _. apply decrypt_grant.
Qed.

(** A completed call leaves the ledger and the token with rights on the
    ciphertext of the amount, the one the token is asked to move; that
    ciphertext decrypts to the amount; and no right held before is lost. *)
Theorem amount_rights c w w' :
  perform c w = (Ok tt, w') ->
  FHE.isAllowed (FHE.fresh (fhe w)) (this w) (fhe w') = true /\
  FHE.isAllowed (FHE.fresh (fhe w)) (tokenAddress w) (fhe w') = true /\
  FHE.decrypt (FHE.fresh (fhe w)) (fhe w') = amount_of c /\
  forall h p, FHE.isAllowed h p (fhe w) = true -> FHE.isAllowed h p (fhe w') = true.
Proof.
  intros Hrun.
  apply perform_inv in Hrun as (Ha & _ & _ & _ & _ & (hs & Hsc & Hbk) & _).
  pose proof (bookkeeping_rights _ _ _ _ _ _ _ Hbk) as (Hkeep & _ & _ & _ & Hl & Ht).
  apply bookkeeping_unfold in Hbk as (e2 & e3 & Hs & Hu & He).
  split; [by apply isAllowed_true|]. split; [by apply isAllowed_true|]. split.
  - rewrite He.
    change (FHE.decrypt ?x (FHE.allow _ _ (FHE.allow _ _ e3))) with (FHE.decrypt x e3).
    assert (FHE.counter (FHE.asEuint64 (amount_of c) (fhe w)).2 = FHE.fresh (fhe w))
      as Hc1 by done.
    apply update_with_keeps in Hs as (Hm2 & Hold2).
    apply update_with_keeps in Hu as (_ & Hold3).
    rewrite Hold3, Hold2 by lia.
    transitivity (amount_of c mod 2 ^ 64); [exact (decrypt_asEuint64 _ _)|].
    apply Z.mod_small. unfold uint64_max in Ha. lia.
  - intros h p Hp%isAllowed_true. by apply isAllowed_true, Hkeep.
Qed.

End Handles.

(** ** Histories *)

Section Histories.
Context {Registry : Type} `{!ERC7984 Registry}.
Implicit Types (w : World Registry) (sender user : address) (amount : Z) (c : Call).

Lemma net_staked_snoc a evs ev :
  net_staked a (evs ++ [ev]) = net_staked a evs + signed_amount a ev.
Proof.
  unfold net_staked. induction evs as [|ev' evs IH]; cbn; [lia|]. rewrite IH. lia.
Qed.

Lemma net_flow_snoc evs ev : net_flow (evs ++ [ev]) = net_flow evs + flow ev.
Proof.
  unfold net_flow. induction evs as [|ev' evs IH]; cbn; [lia|]. rewrite IH. lia.
Qed.

Lemma perform_event c w w' :
  perform c w = (Ok tt, w') -> events w' = events w ++ [event_of c].
Proof.
  intros Hrun. apply perform_inv in Hrun as (_ & _ & _ & _ & _ & _ & _ & ->).
  by destruct c.
Qed.

Lemma journalled_perform c w w' :
  journalled w -> perform c w = (Ok tt, w') -> journalled w'.
Proof.
  intros [Hs Ht] Hrun. pose proof (perform_event c w w' Hrun) as Hev.
  apply perform_inv in Hrun as (_ & _ & _ & Hst & Htot & _).
  unfold journalled, getTotalStaked in *. split.
  - intros a. rewrite Hev, net_staked_snoc, <- Hs.
    rewrite (getStake_insert w w' _ _ a Hst).
    destruct c as [s x|s x]; cbn; repeat case_decide; subst; lia.
  - rewrite Hev, net_flow_snoc, <- Ht, Htot. destruct c; cbn; lia.
Qed.

Lemma reachable_journalled w : reachable w -> journalled w.
Proof.
  apply reachable_invariant.
  - intros self tok r w0 [_ ->]%constructor_inv. by split.
  - intros w1 s Hw1.
    destruct (step_cases w1 s) as [(c & w' & _ & Hrun & ->)|[->|[r ->]]];
      [by eapply journalled_perform | done | done].
Qed.

(** The event log is a faithful journal: in every reachable state an
    account's plaintext stake is what its [Staked] events add up to minus its
    [Withdrawn] events, and the plaintext total is the same sum over all
    events. *)
Theorem stakes_follow_the_events w a :
  reachable w ->
  getStake a w = net_staked a (events w) /\
  getTotalStaked w = net_flow (events w).
Proof. intros [Hs Ht]%reachable_journalled. split; [apply Hs | apply Ht]. Qed.



(** A deposit can be taken back: after a completed deposit of [amount] the
    same account's withdrawal of [amount] passes every check of the ledger, and
    once the token has moved the asset back every plaintext stake and the
    plaintext total are what they were before the deposit. *)
Theorem deposit_then_withdrawal w sender amount w1 r :
  reachable w ->
  transact (stake sender amount) w = (Success, w1) ->
  confidentialTransfer (this w1) sender (FHE.fresh (fhe w1)) (registry w1) = Some r ->
  exists w2,
    transact (withdraw sender amount) w1 = (Success, w2) /\
    (forall a, getStake a w2 = getStake a w) /\
    getTotalStaked w2 = getTotalStaked w.
Proof.
  intros Hw%reachable_solvent Hrun1%transact_success Hr.
  pose proof (getStake_nonneg w sender Hw) as Hge.
  pose proof (solvent_stake_le_total w sender Hw) as Hle.
  apply (perform_inv (CallStake sender amount)) in Hrun1
    as (Ha & _ & _ & Hs1 & Ht1 & _); cbn in *.
  assert (getStake sender w1 = getStake sender w + amount) as Hmine.
  { by rewrite (getStake_insert w w1 _ _ sender Hs1), decide_True. }
  destruct (withdraw_succeeds w1 sender amount r) as [w2 Hrun2]; [lia..|done|].
  exists w2. split; [by apply transact_success|].
  apply (perform_inv (CallWithdraw sender amount)) in Hrun2
    as (_ & _ & _ & Hs2 & Ht2 & _); cbn in *.
  unfold getTotalStaked. split; [|lia].
  intros a. rewrite (getStake_insert w1 w2 _ _ a Hs2), (getStake_insert w w1 _ _ a Hs1).
  case_decide; [subst a; lia | done].
Qed.

(** The constructor accepts any token address but zero; the ledger it
    returns is empty, and no call ever changes the address of the token or of
    the ledger. *)
Theorem deployment_and_immutables self tokenAddress_ r :
  (tokenAddress_ = 0%N -> constructor self tokenAddress_ r = Revert InvalidToken) /\
  (tokenAddress_ <> 0%N ->
   exists w0,
     constructor self tokenAddress_ r = Ok w0 /\
     getTotalStaked w0 = 0 /\
     FHE.isInitialized (getTotalStakedCipher w0) = false /\
     events w0 = [] /\
     (forall a, getStake a w0 = 0 /\ FHE.isInitialized (getStakeCipher a w0) = false) /\
     forall steps,
       tokenAddress (replay steps w0) = tokenAddress_ /\ this (replay steps w0) = self).
Proof.
  unfold constructor. split.
  - by intros ->.
  - intros Hnz%N.eqb_neq. rewrite Hnz. eexists. split; [reflexivity|].
    do 4 (split; [done|]).
    intros steps.
    apply (replay_invariant (fun w => tokenAddress w = tokenAddress_ /\ this w = self));
      [|done].
    intros w1 s [Htok Hself].
    destruct (step_cases w1 s) as [(c & w' & _ & Hrun & ->)|[->|[r' ->]]];
      [|done..].
    apply perform_inv in Hrun as (_ & Hthis & Htoken & _).
    unfold tokenAddress in *. by rewrite Hthis, Htoken.
Qed.

(** While nobody has deposited, no handle at all is initialised. *)
Lemma reachable_no_handle_before_total w :
  reachable w -> _totalStakedCipher w = 0%N -> forall a, getStakeCipher a w = 0%N.
Proof.
  revert w.
  apply (reachable_invariant
           (fun w => _totalStakedCipher w = 0%N -> forall a, getStakeCipher a w = 0%N)).
  - by intros self tok r w0 [_ ->]%constructor_inv.
  - intros w1 s Hw1.
    destruct (step_cases w1 s) as [(c & w' & _ & Hrun & ->)|[->|[r ->]]];
      [|done..].
    by destruct (perform_initialises c w1 w' Hrun).
Qed.

(** The very first deposit gives the account and the total one and the same
    handle, so the first depositor holds decryption rights on the total. *)
Theorem first_deposit_shares_its_handle w sender amount w' :
  reachable w ->
  FHE.isInitialized (getTotalStakedCipher w) = false ->
  transact (stake sender amount) w = (Success, w') ->
  getTotalStakedCipher w' = getStakeCipher sender w' /\
  getStakeCipher sender w' = FHE.fresh (fhe w) /\
  FHE.isAllowed (getTotalStakedCipher w') sender (fhe w') = true.
Proof.
  intros Hw Hblank%isInitialized_false Hrun%transact_success.
  pose proof (reachable_no_handle_before_total w Hw Hblank sender) as Hmine.
  apply (perform_inv (CallStake sender amount)) in Hrun
    as (_ & _ & _ & _ & _ & (hs & Hsc & Hbk) & _); cbn in *.
  pose proof (bookkeeping_rights _ _ _ _ _ _ _ Hbk) as (_ & _ & Hright & _).
  apply bookkeeping_unfold in Hbk as (e2 & e3 & Hs & Ht & _).
  unfold getTotalStakedCipher in *.
  rewrite (getStakeCipher_insert w w' _ _ sender Hsc), decide_True by done.
  unfold update_with in Hs, Ht. rewrite Hmine in Hs. rewrite Hblank in Ht.
  cbn in Hs, Ht. simplify_eq.
  split; [done|]. split; [done|]. apply isAllowed_true. congruence.
Qed.

(** Two completed calls of distinct accounts, deposits or withdrawals,
    commute on the plaintext state. *)
Theorem calls_of_distinct_accounts_commute c1 c2 w w1 w12 w2 w21 :
  caller c1 <> caller c2 ->
  transact (perform c1) w = (Success, w1) ->
  transact (perform c2) w1 = (Success, w12) ->
  transact (perform c2) w = (Success, w2) ->
  transact (perform c1) w2 = (Success, w21) ->
  _stakes w12 = _stakes w21 /\
  getTotalStaked w12 = getTotalStaked w21 /\
  forall a, getStake a w12 = getStake a w21.
Proof.
  intros Hne H1%transact_success H2%transact_success
         H3%transact_success H4%transact_success.
  apply perform_inv in H1 as (_ & _ & _ & Hs1 & Ht1 & _).
  apply perform_inv in H2 as (_ & _ & _ & Hs2 & Ht2 & _).
  apply perform_inv in H3 as (_ & _ & _ & Hs3 & Ht3 & _).
  apply perform_inv in H4 as (_ & _ & _ & Hs4 & Ht4 & _).
  assert (getStake (caller c2) w1 = getStake (caller c2) w) as Hc2.
  { by rewrite (getStake_insert w w1 _ _ _ Hs1), decide_False. }
  assert (getStake (caller c1) w2 = getStake (caller c1) w) as Hc1.
  { by rewrite (getStake_insert w w2 _ _ _ Hs3), decide_False. }
  assert (_stakes w12 = _stakes w21) as Heq.
  { rewrite Hs2, Hs4, Hs1, Hs3, Hc2, Hc1. by apply insert_insert_ne. }
  split; [done|]. split.
  - unfold getTotalStaked. rewrite Ht2, Ht4, Ht1, Ht3.
    destruct (is_deposit c1), (is_deposit c2); lia.
  - intros a. unfold getStake. by rewrite Heq.
Qed.

End Histories.

(** ** The front end *)

Section FrontEndFacts.
Context {Registry : Type} `{!ERC7984 Registry}.
Variables (MAX_UINT64 : Z) (TOKEN_DECIMALS : nat).
Variables (FHE_VAULT_ADDRESS FUSDT_ADDRESS : address).
Variable parseUnits : string -> nat -> string + Z.
Variable trim : string -> string.


Lemma ensurePositiveAmount_inr value action amount :
  ensurePositiveAmount MAX_UINT64 TOKEN_DECIMALS parseUnits trim value action
    = inr amount <->
  value <> "" /\ trim value <> "" /\
  parseUnits value TOKEN_DECIMALS = inr amount /\ 0 < amount <= MAX_UINT64.
Proof.
  unfold ensurePositiveAmount.
  destruct (bool_decide (value = "")) eqn:He; cbn.
  { apply bool_decide_eq_true in He. split; [done | by intros [? _]]. }
  destruct (bool_decide (trim value = "")) eqn:Ht; cbn.
  { apply bool_decide_eq_true in Ht. split; [done | by intros (_ & ? & _)]. }
  apply bool_decide_eq_false in He, Ht.
  destruct (parseUnits value TOKEN_DECIMALS) as [m|parsed].
  { split; [done | by intros (_ & _ & ? & _)]. }
  destruct (parsed <=? 0) eqn:Hpos.
  { split; [done | intros (_ & _ & [= ->] & ?); lia]. }
  destruct (MAX_UINT64 <? parsed) eqn:Hmax.
  { split; [done | intros (_ & _ & [= ->] & ?); lia]. }
  split.
  - intros [= ->]. repeat split; try done; lia.
  - by intros (_ & _ & [= ->] & _).
Qed.

(** [ensurePositiveAmount] returns an amount exactly when the input is not
    blank, [parseUnits] reads it, and the value read lies in
    [1 .. MAX_UINT64]; a blank input is refused, before any parsing, with
    the message that names the action. *)
Theorem ensurePositiveAmount_accepts value action amount :
  (ensurePositiveAmount MAX_UINT64 TOKEN_DECIMALS parseUnits trim value action
     = inr amount <->
   value <> "" /\ trim value <> "" /\
   parseUnits value TOKEN_DECIMALS = inr amount /\ 0 < amount <= MAX_UINT64) /\
  (value = "" \/ trim value = "" ->
   ensurePositiveAmount MAX_UINT64 TOKEN_DECIMALS parseUnits trim value action
     = inl ("Enter an amount to " +:+ action +:+ ".")).
Proof.
  split; [apply ensurePositiveAmount_inr|].
  unfold ensurePositiveAmount.
  intros [Hblank|Hblank]; rewrite (bool_decide_eq_true_2 _ Hblank);
    [done | by rewrite orb_true_r].
Qed.

(** An amount that has passed the checks of the front end passes the local
    checks of the ledger: a deposit sent by [handleStake] can only fail on the
    256-bit total or in the token, and a withdrawal that [handleWithdraw]
    lets through, given the stake of the state it is run against, completes
    unless the token refuses the transfer. *)
Theorem validated_amounts_pass_the_ledger (w : World Registry) sender value action
    amount :
  MAX_UINT64 <= uint64_max ->
  reachable w ->
  (ensurePositiveAmount MAX_UINT64 TOKEN_DECIMALS parseUnits trim value action
     = inr amount ->
   fst (transact (stake sender amount) w) =
     if uint256_max <? getTotalStaked w + amount then Failure Panic
     else match transfer_step (CallStake sender amount) w with
          | Some _ => Success
          | None => Failure TransferReverted
          end) /\
  (withdraw_amount MAX_UINT64 TOKEN_DECIMALS parseUnits trim value (getStake sender w)
     = inr amount ->
   fst (transact (withdraw sender amount) w) =
     match transfer_step (CallWithdraw sender amount) w with
     | Some _ => Success
     | None => Failure TransferReverted
     end).
Proof.
  intros Hmax Hw. split.
  - intros (_ & _ & _ & Ha)%ensurePositiveAmount_inr.
    pose proof (call_answer (CallStake sender amount) w Hw) as Hc.
    cbn [perform caller amount_of is_deposit negb andb] in Hc. rewrite Hc.
    assert (is_uint64 amount = true) as -> by (apply is_uint64_spec; lia).
    assert ((amount =? 0) = false) as -> by lia. done.
  - unfold withdraw_amount.
    destruct (ensurePositiveAmount MAX_UINT64 TOKEN_DECIMALS parseUnits trim value
                "withdraw") as [m|x] eqn:Hx; [done|].
    destruct (getStake sender w <? x) eqn:Hle; [done|]. intros [= ->].
    apply ensurePositiveAmount_inr in Hx as (_ & _ & _ & Ha).
    pose proof (call_answer (CallWithdraw sender amount) w Hw) as Hc.
    cbn [perform caller amount_of is_deposit negb andb] in Hc. rewrite Hc.
    assert (is_uint64 amount = true) as -> by (apply is_uint64_spec; lia).
    assert ((amount =? 0) = false) as -> by lia. by rewrite Hle.
Qed.

Lemma array_from_set_acc (xs seen : list address) :
  NoDup seen ->
  let out := foldl (fun seen x => if bool_decide (x ∈ seen) then seen else seen ++ [x])
               seen xs in
  NoDup out /\ forall x, x ∈ out <-> x ∈ seen \/ x ∈ xs.
Proof.
  revert seen. induction xs as [|y xs IH]; intros seen Hnd; cbn.
  - split; [done|]. intros x. rewrite elem_of_nil. tauto.
  - destruct (bool_decide (y ∈ seen)) eqn:Hy.
    + apply bool_decide_eq_true in Hy.
      destruct (IH seen Hnd) as [Hnd' Hin]. split; [done|].
      intros x. rewrite Hin, elem_of_cons.
      split; [tauto | intros [?|[->|?]]; auto].
    + apply bool_decide_eq_false in Hy.
      assert (NoDup (seen ++ [y])) as Hnd2.
      { apply NoDup_app. split; [done|]. split; [|apply NoDup_singleton].
        intros x Hx ->%list_elem_of_singleton. done. }
      destruct (IH (seen ++ [y]) Hnd2) as [Hnd' Hin]. split; [done|].
      intros x. rewrite Hin, elem_of_app, list_elem_of_singleton, elem_of_cons. tauto.
Qed.

(** The decryption request: no uninitialised handle is ever sent; each handle
    is paired with the ledger or with the token; the request is empty exactly
    when the three handles are all uninitialised, that is when the query is not
    enabled; and the list of contracts signed for names each contract of the
    request once. *)
Theorem decrypt_request_well_formed (s t v : euint64) :
  let pairs := handlePairs FHE_VAULT_ADDRESS FUSDT_ADDRESS s t v in
  (forall p, p ∈ pairs ->
     handle p <> 0%N /\
     (contractAddress p = FHE_VAULT_ADDRESS \/ contractAddress p = FUSDT_ADDRESS)) /\
  (pairs = [] <-> some_handle s t v = false) /\
  (length pairs <= 3)%nat /\
  NoDup (uniqueContracts pairs) /\
  (forall x, x ∈ uniqueContracts pairs <-> x ∈ map contractAddress pairs).
Proof.
  intros pairs.
  destruct (array_from_set_acc (map contractAddress pairs) [] (NoDup_nil_2))
    as [Hnd Hin].
  split; [|split; [|split; [|split; [exact Hnd|]]]].
  - subst pairs. unfold handlePairs. intros p.
    destruct (s =? 0)%N eqn:Hs, (t =? 0)%N eqn:Ht, (v =? 0)%N eqn:Hv; cbn;
      rewrite ?N.eqb_neq in *;
      rewrite ?elem_of_cons, ?elem_of_nil; intros Hp;
      repeat (destruct Hp as [->|Hp]); try done; cbn; auto.
  - subst pairs. unfold handlePairs, some_handle.
    destruct (s =? 0)%N, (t =? 0)%N, (v =? 0)%N; cbn; split; done.
  - subst pairs. unfold handlePairs.
    destruct (s =? 0)%N, (t =? 0)%N, (v =? 0)%N; cbn; lia.
  - intros x. unfold uniqueContracts, array_from_set. rewrite (Hin x), elem_of_nil. tauto.
Qed.

End FrontEndFacts.

(** The request the front end builds for an account's stake names the ledger
    as the contract, and in every reachable state the account and the ledger
    both hold decryption rights on that handle. *)
Theorem stake_decrypt_request_is_authorised {Registry : Type} `{!ERC7984 Registry}
    (w : World Registry) (a FUSDT_ADDRESS : address) (t v : euint64) :
  reachable w ->
  FHE.isInitialized (getStakeCipher a w) = true ->
  head (handlePairs (this w) FUSDT_ADDRESS (getStakeCipher a w) t v) =
    Some (mkHandlePair (getStakeCipher a w) (this w)) /\
  FHE.isAllowed (getStakeCipher a w) a (fhe w) = true /\
  FHE.isAllowed (getStakeCipher a w) (this w) (fhe w) = true.
Proof.
  intros [Hl Ha _]%reachable_entitled Hinit.
  pose proof Hinit as Hnz%isInitialized_true.
  split; [|split; auto].
  unfold handlePairs. unfold FHE.isInitialized in Hinit. rewrite Hinit.
  by destruct (t =? 0)%N, (v =? 0)%N.
Qed.

(** ** Instances of the further properties *)

Lemma reachable_genesis g : reachable (genesis g).
Proof. exact (reachable_replay [] g). Qed.

Lemma reachable_after_withdraw : reachable after_withdraw.
Proof.
  exact (reachable_replay
           [Invoke (CallStake alice 5000000); Invoke (CallWithdraw alice 2000000)] Open).
Qed.


Lemma withdraw_outcome_witness :
  reachable after_deposit /\
  fst (transact (withdraw alice 6000000) after_deposit) = Failure InsufficientStake.
Proof.
  split; [exact reachable_after_deposit|].
  exact (withdraw_outcome after_deposit alice 6000000 reachable_after_deposit).
Defined.

Lemma withdraw_effect_witness :
  transact (withdraw alice 2000000) after_deposit = (Success, after_withdraw) /\
  getStake alice after_withdraw = getStake alice after_deposit - 2000000.
Proof.
  assert (transact (withdraw alice 2000000) after_deposit = (Success, after_withdraw))
    as Hrun by (by vm_compute).
  split; [exact Hrun|].
  exact (proj1 (proj2 (withdraw_effect after_deposit alice 2000000 after_withdraw Hrun))).
Defined.

Lemma others_untouched_witness :
  reachable after_deposit /\
  perform (CallStake bob 7) after_deposit = (Ok tt, two_stakers) /\
  alice <> caller (CallStake bob 7) /\
  getStake alice two_stakers = getStake alice after_deposit.
Proof.
  assert (perform (CallStake bob 7) after_deposit = (Ok tt, two_stakers)) as Hrun
    by (by vm_compute).
  assert (alice <> caller (CallStake bob 7)) as Hne by done.
  split; [exact reachable_after_deposit|]. split; [exact Hrun|]. split; [exact Hne|].
  exact (proj1 (others_untouched _ _ _ alice reachable_after_deposit Hrun Hne)).
Defined.

Lemma blank_handle_means_no_stake_witness :
  reachable after_deposit /\
  FHE.isInitialized (getStakeCipher bob after_deposit) = false /\
  getStake bob after_deposit = 0.
Proof.
  assert (FHE.isInitialized (getStakeCipher bob after_deposit) = false) as Hblank
    by (by vm_compute).
  split; [exact reachable_after_deposit|]. split; [exact Hblank|].
  exact (proj1 (blank_handle_means_no_stake after_deposit bob reachable_after_deposit)
           Hblank).
Defined.

Lemma handles_stay_initialised_witness :
  FHE.isInitialized (getStakeCipher alice after_deposit) = true /\
  FHE.isInitialized
    (getStakeCipher alice
       (replay [Invoke (CallWithdraw alice 5000000)] after_deposit)) = true.
Proof.
  assert (FHE.isInitialized (getStakeCipher alice after_deposit) = true) as Hinit
    by (by vm_compute).
  split; [exact Hinit|].
  exact (proj1 (handles_stay_initialised [Invoke (CallWithdraw alice 5000000)]
                  after_deposit alice) Hinit).
Defined.

Lemma emptied_stake_keeps_its_handle_witness :
  let w' := snd (transact (withdraw alice 5000000) after_deposit) in
  reachable after_deposit /\
  transact (withdraw alice (getStake alice after_deposit)) after_deposit = (Success, w') /\
  FHE.isInitialized (getStakeCipher alice w') = true.
Proof.
  intros w'.
  assert (transact (withdraw alice (getStake alice after_deposit)) after_deposit
          = (Success, w')) as Hrun by (by vm_compute).
  split; [exact reachable_after_deposit|]. split; [exact Hrun|].
  exact (proj1 (proj2 (emptied_stake_keeps_its_handle after_deposit alice w'
                         reachable_after_deposit Hrun))).
Defined.

Lemma mirror_modulo_2_64_witness :
  reachable twice_max /\
  FHE.isInitialized (getStakeCipher alice twice_max) = true /\
  FHE.decrypt (getStakeCipher alice twice_max) (fhe twice_max) =
    getStake alice twice_max mod 2 ^ 64.
Proof.
  assert (reachable twice_max) as Hw
    by exact (reachable_replay
                [Invoke (CallStake alice uint64_max); Invoke (CallStake alice uint64_max)]
                Open).
  assert (FHE.isInitialized (getStakeCipher alice twice_max) = true) as Hinit
    by (by vm_compute).
  split; [exact Hw|]. split; [exact Hinit|].
  exact (proj1 (mirror_modulo_2_64 twice_max alice Hw) Hinit).
Defined.

Lemma mirror_exact_below_2_64_witness :
  reachable after_withdraw /\
  getStake alice after_withdraw <= uint64_max /\
  FHE.isInitialized (getStakeCipher alice after_withdraw) = true /\
  FHE.decrypt (getStakeCipher alice after_withdraw) (fhe after_withdraw) =
    getStake alice after_withdraw.
Proof.
  assert (getStake alice after_withdraw <= uint64_max) as Hfit by (by vm_compute).
  assert (FHE.isInitialized (getStakeCipher alice after_withdraw) = true) as Hinit
    by (by vm_compute).
  split; [exact reachable_after_withdraw|]. split; [exact Hfit|]. split; [exact Hinit|].
  exact (proj1 (mirror_exact_below_2_64 after_withdraw alice reachable_after_withdraw)
           Hfit Hinit).
Defined.

Lemma stored_handles_are_readable_witness :
  reachable two_stakers /\
  FHE.isInitialized (getStakeCipher bob two_stakers) = true /\
  FHE.isAllowed (getStakeCipher bob two_stakers) bob (fhe two_stakers) = true.
Proof.
  assert (FHE.isInitialized (getStakeCipher bob two_stakers) = true) as Hinit
    by (by vm_compute).
  split; [exact reachable_two_stakers|]. split; [exact Hinit|].
  exact (proj2 (proj1 (stored_handles_are_readable two_stakers bob reachable_two_stakers)
                  Hinit)).
Defined.

Lemma amount_rights_witness :
  perform (CallWithdraw alice 2000000) after_deposit = (Ok tt, after_withdraw) /\
  FHE.isAllowed (FHE.fresh (fhe after_deposit)) (tokenAddress after_deposit)
    (fhe after_withdraw) = true.
Proof.
  split; [exact withdraw_after_deposit|].
  exact (proj1 (proj2 (amount_rights _ _ _ withdraw_after_deposit))).
Defined.

Lemma stakes_follow_the_events_witness :
  reachable after_withdraw /\
  getStake alice after_withdraw = net_staked alice (events after_withdraw).
Proof.
  split; [exact reachable_after_withdraw|].
  exact (proj1 (stakes_follow_the_events after_withdraw alice reachable_after_withdraw)).
Defined.


Lemma deposit_then_withdrawal_witness :
  reachable after_deposit /\
  transact (stake bob 7) after_deposit = (Success, two_stakers) /\
  exists w2,
    transact (withdraw bob 7) two_stakers = (Success, w2) /\
    (forall a, getStake a w2 = getStake a after_deposit) /\
    getTotalStaked w2 = getTotalStaked after_deposit.
Proof.
  assert (transact (stake bob 7) after_deposit = (Success, two_stakers)) as Hrun
    by (by vm_compute).
  assert (confidentialTransfer (this two_stakers) bob (FHE.fresh (fhe two_stakers))
            (registry two_stakers) = Some Open) as Hr by (by vm_compute).
  split; [exact reachable_after_deposit|]. split; [exact Hrun|].
  exact (deposit_then_withdrawal after_deposit bob 7 two_stakers Open
           reachable_after_deposit Hrun Hr).
Defined.

Lemma deployment_and_immutables_witness :
  token_address <> 0%N /\
  exists w0 : World Gate,
    constructor vault_address token_address Open = Ok w0 /\
    tokenAddress (replay [Invoke (CallStake alice 5000000)] w0) = token_address.
Proof.
  assert (token_address <> 0%N) as Hnz by done.
  split; [exact Hnz|].
  destruct (proj2 (deployment_and_immutables vault_address token_address Open) Hnz)
    as (w0 & Hc & _ & _ & _ & _ & Himm).
  exists w0. split; [exact Hc|].
  exact (proj1 (Himm [Invoke (CallStake alice 5000000)])).
Defined.

Lemma first_deposit_shares_its_handle_witness :
  reachable (genesis Open) /\
  FHE.isInitialized (getTotalStakedCipher (genesis Open)) = false /\
  transact (stake alice 5000000) (genesis Open) = (Success, after_deposit) /\
  getTotalStakedCipher after_deposit = getStakeCipher alice after_deposit.
Proof.
  assert (FHE.isInitialized (getTotalStakedCipher (genesis Open)) = false) as Hblank
    by (by vm_compute).
  assert (transact (stake alice 5000000) (genesis Open) = (Success, after_deposit))
    as Hrun by (by vm_compute).
  split; [exact (reachable_genesis Open)|]. split; [exact Hblank|]. split; [exact Hrun|].
  exact (proj1 (first_deposit_shares_its_handle (genesis Open) alice 5000000 after_deposit
                  (reachable_genesis Open) Hblank Hrun)).
Defined.

Lemma calls_of_distinct_accounts_commute_witness :
  let c1 := CallWithdraw alice 2000000 in
  let c2 := CallStake bob 7 in
  let w1 := snd (transact (perform c1) after_deposit) in
  let w2 := snd (transact (perform c2) after_deposit) in
  let w12 := snd (transact (perform c2) w1) in
  let w21 := snd (transact (perform c1) w2) in
  caller c1 <> caller c2 /\ _stakes w12 = _stakes w21.
Proof.
  intros c1 c2 w1 w2 w12 w21.
  assert (caller c1 <> caller c2) as Hne by done.
  assert (transact (perform c1) after_deposit = (Success, w1)) as H1 by (by vm_compute).
  assert (transact (perform c2) w1 = (Success, w12)) as H2 by (by vm_compute).
  assert (transact (perform c2) after_deposit = (Success, w2)) as H3 by (by vm_compute).
  assert (transact (perform c1) w2 = (Success, w21)) as H4 by (by vm_compute).
  split; [exact Hne|].
  exact (proj1 (calls_of_distinct_accounts_commute c1 c2 after_deposit w1 w12 w2 w21
                  Hne H1 H2 H3 H4)).
Defined.

Lemma ensurePositiveAmount_accepts_witness :
  ensurePositiveAmount uint64_max 6 whole_units as_typed "5" "stake" = inr 5000000 /\
  0 < 5000000 <= uint64_max.
Proof.
  assert (ensurePositiveAmount uint64_max 6 whole_units as_typed "5" "stake"
          = inr 5000000) as Hok by (by vm_compute).
  split; [exact Hok|].
  destruct (proj1 (proj1 (ensurePositiveAmount_accepts uint64_max 6 whole_units as_typed
                            "5" "stake" 5000000)) Hok) as (_ & _ & _ & Hrange).
  exact Hrange.
Defined.

Lemma validated_amounts_pass_the_ledger_witness :
  uint64_max <= uint64_max /\
  reachable after_deposit /\
  withdraw_amount uint64_max 6 whole_units as_typed "2" (getStake alice after_deposit)
    = inr 2000000 /\
  fst (transact (withdraw alice 2000000) after_deposit) = Success.
Proof.
  assert (uint64_max <= uint64_max) as Hmax by done.
  assert (withdraw_amount uint64_max 6 whole_units as_typed "2"
            (getStake alice after_deposit) = inr 2000000) as Hok by (by vm_compute).
  split; [exact Hmax|]. split; [exact reachable_after_deposit|]. split; [exact Hok|].
  exact (proj2 (validated_amounts_pass_the_ledger uint64_max 6 whole_units as_typed
                  after_deposit alice "2" "withdraw" 2000000 Hmax reachable_after_deposit)
           Hok).
Defined.

Lemma decrypt_request_well_formed_witness :
  some_handle 3%N 0%N 8%N = true /\
  handlePairs vault_address token_address 3%N 0%N 8%N <> [].
Proof.
  assert (some_handle 3%N 0%N 8%N = true) as Hsome by reflexivity.
  split; [exact Hsome|].
  destruct (decrypt_request_well_formed vault_address token_address 3%N 0%N 8%N)
    as (_ & Hempty & _).
  intros Hnil. apply Hempty in Hnil. rewrite Hsome in Hnil. discriminate Hnil.
Defined.

Lemma stake_decrypt_request_is_authorised_witness :
  reachable after_deposit /\
  FHE.isInitialized (getStakeCipher alice after_deposit) = true /\
  FHE.isAllowed (getStakeCipher alice after_deposit) alice (fhe after_deposit) = true.
Proof.
  assert (FHE.isInitialized (getStakeCipher alice after_deposit) = true) as Hinit
    by (by vm_compute).
  split; [exact reachable_after_deposit|]. split; [exact Hinit|].
  exact (proj1 (proj2 (stake_decrypt_request_is_authorised after_deposit alice
                         token_address 0%N 0%N reachable_after_deposit Hinit))).
Defined.
